(** * Email triage toolkit: a shallow embedding and its properties

    The development follows the three scripts of the repository:
    - [scripts/triage_emails.py]: the two sender matcher sets, the domain
      extractor [get_domain], the triage run [main] and its report;
    - [scripts/sample_emails.py]: the sampling operation [sample_emails];
    - [scripts/top_senders.py]: the ranking of senders, [TopSenders.main].

    Modelling choices.
    - A Python [str] is a [string] of 8-bit characters; [lower] folds the
      ASCII letters only, so the model covers ASCII sender texts.
    - A JSON email is a [gmap string string]: an object whose fields hold
      strings.  [dict.get(key, default)] is [dict_get].
    - A folder is a [gmap string content] from file names to what
      [open]/[json.load] produces for that file: either the parsed email
      or the exception that was raised.
    - An uncaught Python exception is [None] in the [option] monad. *)

From Stdlib Require Import ZArith Ascii String.
From stdpp Require Import gmap strings list sorting fin_maps.
Local Open Scope string_scope.

(** ** Python string and list primitives used by the scripts *)

Module Py.

(** [str.lower()] on one ASCII character. *)
Definition lower_char (c : ascii) : ascii :=
  let n := nat_of_ascii c in
  if (65 <=? n)%nat && (n <=? 90)%nat then ascii_of_nat (n + 32) else c.

Fixpoint lower (s : string) : string :=
  match s with
  | EmptyString => EmptyString
  | String c s' => String (lower_char c) (lower s')
  end.

(** [pat in s]: [pat] occurs in [s] as a contiguous substring. *)
Fixpoint str_in (pat s : string) : bool :=
  String.prefix pat s ||
  match s with
  | EmptyString => false
  | String _ s' => str_in pat s'
  end.

(** [s.split(sep)] for a one-character separator, which is all the
    scripts use. *)
Fixpoint split (sep : ascii) (s : string) : list string :=
  match s with
  | EmptyString => [EmptyString]
  | String c s' =>
      if Ascii.eqb c sep then EmptyString :: split sep s'
      else match split sep s' with
           | [] => [String c EmptyString]
           | w :: ws => String c w :: ws
           end
  end.

(** [s[:n]]. *)
Definition slice_to (n : nat) (s : string) : string := String.substring 0 n s.

(** [l[start:]] with Python's treatment of negative and oversized
    indices. *)
Definition slice_from {A} (start : Z) (l : list A) : list A :=
  let n := Z.of_nat (length l) in
  let i := if (start <? 0)%Z then Z.max 0 (start + n) else Z.min start n in
  drop (Z.to_nat i) l.

(** [name] matches the glob pattern ["*" ++ suffix]. *)
Definition ends_with (suffix s : string) : bool :=
  let n := String.length s in
  let k := String.length suffix in
  (k <=? n)%nat && String.eqb (String.substring (n - k) k s) suffix.

(** [d.get(key, dflt)]. *)
Definition dict_get (d : gmap string string) (key dflt : string) : string :=
  default dflt (d !! key).

(** The text of [s] before its first [c] (all of [s] when there is none),
    and the text after it (empty when there is none). *)
Fixpoint before_first (c : ascii) (s : string) : string :=
  match s with
  | EmptyString => EmptyString
  | String a s' =>
      if Ascii.eqb a c then EmptyString else String a (before_first c s')
  end.

Fixpoint after_first (c : ascii) (s : string) : string :=
  match s with
  | EmptyString => EmptyString
  | String a s' => if Ascii.eqb a c then s' else after_first c s'
  end.

End Py.
Export Py.

(** ** The record store *)

(** What loading one file gives: [json.load] succeeded, or [open] or
    [json.load] raised an exception with the given message. *)
Inductive content :=
  | LoadError (msg : string)
  | Parsed (email : gmap string string).

(** [sorted(folder.glob("*.json"))]: the names ending in [.json], in
    increasing order. *)
Definition glob_json (folder : gmap string content) : list string :=
  filter (λ f, ends_with ".json" f = true) (elements (dom folder)).

Definition sorted : list string → list string := merge_sort String.le.

(** [open(f)] followed by [json.load]; a missing file raises as well. *)
Definition json_load (folder : gmap string content) (f : string) : content :=
  match folder !! f with
  | Some c => c
  | None => LoadError "No such file or directory"
  end.

(** ** scripts/triage_emails.py *)

Module Triage.

Definition ARCHIVE_SENDERS : list string :=
  [ "honeybirdette.com"
  ; "e.inc.com"
  ; "service.tiktok.com"
  ; "a.grubhub.com"
  ; "ocasiocortez.com"
  ; "e4.rover.com"
  ; "petfood.express"
  ; "substack.com"
  ; "piratewires.com"
  ; "email.nanit.com"
  ; "news.thebump.com"
  ; "email.chipotle.com"
  ; "mail.toogoodtogo.com"
  ; "defaultkings.com"
  ; "thetiebar.com"
  ; "listi.jpberlin.de"
  ; "voice-noreply@google.com"
  ; "notifications@bugsnag.com"
  ; "squaremktg.com"
  ; "txt.voice.google.com"
  ; "noreply@bambulab.com"
  ; "gusto.com"
  ; "inform.bill.com"
  ; "no-reply@digikey.com"
  ; "notification.intuit.com"
  ; "NoReply.ODD@dhl.com"
  ; "no-reply-aws@amazon.com"
  ; "cloudplatform-noreply@google.com"
  ; "no-reply@accounts.google.com"
  ; "workspace-noreply@google.com"
  ; "no-reply@amazon.com"
  ; "no-reply@patreon.com"
  ; "no-reply@mailchimp.com"
  ; "donotreply@appfolio.com"
  ; "donotreply@onlineportal.appfolio.com"
  ; "members.mobilize.io"
  ; "catalystcampus.org"
  ; "info@prusa3d.com"
  ; "payments-noreply@google.com"
  ; "stellerarts.com"
  ; "drive-shares-dm-noreply@google.com"
  ; "simon-mail.groometransportation.com"
  ; "noreply@qemailserver.com"
  ; "notifications.intuit.com"
  ; "email.slackhq.com"
  ; "adeointeractive.com"
  ; "cps.iau.org"
  ; "email.claude.com"
  ; "info@printables.com"
  ; "qualtrics-research.com"
  ; "Publications.spie.org"
  ; "info@swfound.org"
  ; "no-reply@login.gov"
  ; "drangkromeet.com"
  ; "secondtimefounders.com"
  ; "trwih.com"
  ; "barbaraleeforcongress.org"
  ; "c.hellofresh.com"
  ; "email.ticketmaster.com"
  ; "roktpowered.com"
  ; "101domain.com"
  ; "simonsfoundation.org"
  ; "slack.zendesk.com"
  ; "contact.exploratorium.edu"
  ; "yimbyaction.org"
  ; "e.giffords.org"
  ; "e.votevets.org"
  ; "e.elissaslotkin.org"
  ; "e.chrispappas.org"
  ; "foe.org"
  ; "mail.hallow.com"
  ; "e.roadtrippers.com"
  ; "e.starbucks.com"
  ; "newsletter.trip.com"
  ; "23andme.com"
  ; "bookcrossing.com"
  ; "peakdesign.com"
  ; "bark.co"
  ; "emails.wyndhamhotels.com"
  ; "fluent.pet"
  ; "mailout.plex.tv"
  ; "ctoconnection.com"
  ; "chewy.com"
  ; "e.vacasa.com"
  ; "join.netflix.com"
  ; "e.worldnomads.com"
  ; "tonal.com"
  ; "mschf.com"
  ; "announcements.soundcloud.com"
  ; "updates.miro.com"
  ; "info.haymarketmedicalnetwork.com"
  ; "baukunst.co"
  ; "latecheckout.studio"
  ; "notifications.ro.co"
  ; "thelostchurch.org"
  ; "nanit.com"
  ; "namecheap.com"
  ; "autodeskcommunications.com"
  ; "sensibo.com"
  ; "e.electjon.com"
  ; "techcrunch.com"
  ; "audible.com"
  ; "vcita.com"
  ; "email.1password.com"
  ; "mail.coinbase.com"
  ; "twitch.tv"
  ; "slack.com"
  ; "mail.airtable.com"
  ; "mn.co"
  ; "thekla.com"
  ; "messaging.squareup.com"
  ; "butterand.com"
  ; "androidjones.com"
  ; "babalou.com"
  ; "craigslist.org"
  ; "reply.craigslist.org"
  ; "gregangelo.com"
  ; "texasexesemail.com"
  ; "proofre.com"
  ; "qrzcq.com"
  ; "barszranch.com"
  ; "e.smartnews.com"
  ; "theclymb.com"
  ; "is.email.nextdoor.com"
  ; "reply.chargepoint.com"
  ; "team.twilio.com"
  ; "e.debhaaland.com"
  ; "rackwarehouse.com"
  ; "paws.petmeds.com"
  ; "kochdavisjobs.com"
  ; "fightforthefuture.org"
  ; "youtube.com"
  ; "outreach.assembly.ca.gov"
  ; "catmachin.com"
  ; "info.blueshieldca.com"
  ; "mailgun.gingrapp.com"
  ; "connect.othership.us"
  ; "polytrope.com"
  ; "greathighwaypark.com"
  ; "linkedin.com"
  ; "redheron.com"
  ; "labcorpmessage.com"
  ; "email.modernanimal.com"
  ; "e.healio.com"
  ; "email.classmates.com"
  ; "false-profit.com"
  ; "heathceramics.com"
  ; "vowel.com"
  ; "email.venmo.com"
  ; "wakethetalkup.com"
  ; "engineeredartworks.com"
  ; "duolingo.com"
  ; "em.shutterfly.com"
  ; "vagaro.com"
  ; "retainhr.com"
  ; "marketing.coveredca.com"
  ; "e.simonmed.com"
  ; "g.hellofresh.com"
  ; "visaprepaidprocessing.com"
  ; "service.alibaba.com"
  ; "engage.microsoft.com"
  ; "notices.rei.com"
  ; "godaddy.com"
  ; "frankenforiowa.org"
  ; "flocksafety.com"
  ; "unity3d.com"
  ; "dnuke.com"
  ; "avimark1.com"
  ; "sagebionetworks.org"
  ; "spaero.bio"
  ; "mealtrain.com"
  ; "campaign.eventbrite.com"
  ; "g.kajabimail.net"
  ; "c.kajabimail.net"
  ; "mrktgllry.com"
  ; "globaldatamarketplace.com"
  ; "me.kickstarter.com"
  ; "joshshapiro.org"
  ; "mail.keeps.com"
  ; "mail.lakeshorelearning.com"
  ; "fogcitydogs.com"
  ; "e.fastcompany.com"
  ; "onemedical.com"
  ; "honeyhomes.com"
  ; "lookingup.art"
  ; "climatetechaction.network"
  ; "crunchlabs.com"
  ; "producthunt.com"
  ; "mail.adobe.com"
  ; "173366937.mailchimpapp.com"
  ; "kimblegroup.com"
  ; "hazardfactory.org"
  ; "ss.email.nextdoor.com"
  ; "sportsbasement.com"
  ; "onlinebookclub.org"
  ; "manifold.markets" ].

Definition REVIEW_SENDERS : list string := [].

(** The loop [for pattern in S: if pattern in from_addr: return True]
    followed by [return False]. *)
Fixpoint any_pattern_in (patterns : list string) (from_addr : string) : bool :=
  match patterns with
  | [] => false
  | pattern :: rest =>
      if str_in pattern from_addr then true else any_pattern_in rest from_addr
  end.

Definition get_domain (from_addr : string) : option string :=
  from_addr ←
    (if str_in "<" from_addr
     then part ← split "<" from_addr !! 1%nat; split ">" part !! 0%nat
     else Some from_addr);
  if str_in "@" from_addr
  then part ← split "@" from_addr !! 1%nat; Some (lower part)
  else Some (slice_to 50 (lower from_addr)).

(** The three folders the script works on. *)
Record dirs := Dirs {
  INBOX : gmap string content;
  TO_ARCHIVE : gmap string content;
  NEEDS_REVIEW : gmap string content
}.

Inductive dest := ToArchive | NeedsReview.

(** [shutil.move(INBOX / name, dst / name)]; raises when the source is
    gone, replaces a file of the same name at the destination. *)
Definition shutil_move (name : string) (dst : dest) (d : dirs) : option dirs :=
  c ← INBOX d !! name;
  Some match dst with
       | ToArchive =>
           Dirs (delete name (INBOX d)) (<[name := c]> (TO_ARCHIVE d))
                (NEEDS_REVIEW d)
       | NeedsReview =>
           Dirs (delete name (INBOX d)) (TO_ARCHIVE d)
                (<[name := c]> (NEEDS_REVIEW d))
       end.

(** The [stats] dictionary with its three fixed keys. *)
Record counters := Counters { archive : nat; review : nat; unknown : nat }.

(** The state of a run: the folders, the two tables of [main], and the
    trace of the [shutil.move] calls made so far. *)
Record state := State {
  disk : dirs;
  stats : counters;
  sender_counts : gmap string nat;
  moved : list (string * dest)
}.

Inductive outcome := Review | Archive | Unknown.

Section Matcher.
(** The two matcher sets, [ARCHIVE_SENDERS] and [REVIEW_SENDERS] in the
    script. *)
Variables (archive_set review_set : list string).

Definition should_archive (email : gmap string string) : bool :=
  let from_addr := lower (dict_get email "from" "") in
  any_pattern_in archive_set from_addr.

Definition needs_review (email : gmap string string) : bool :=
  let from_addr := lower (dict_get email "from" "") in
  any_pattern_in review_set from_addr.

(** The branch the [if]/[elif]/[else] chain of [main] takes. *)
Definition classify (email : gmap string string) : outcome :=
  if needs_review email then Review
  else if should_archive email then Archive
  else Unknown.

(** One iteration of the loop of [main]. *)
Definition step (st : state) (filepath : string) : option state :=
  match INBOX (disk st) !! filepath with
  | None | Some (LoadError _) => Some st
  | Some (Parsed email) =>
      if needs_review email then
        d ← shutil_move filepath NeedsReview (disk st);
        Some (State d
                (Counters (archive (stats st)) (review (stats st) + 1)
                          (unknown (stats st)))
                (sender_counts st)
                (moved st ++ [(filepath, NeedsReview)]))
      else if should_archive email then
        d ← shutil_move filepath ToArchive (disk st);
        Some (State d
                (Counters (archive (stats st) + 1) (review (stats st))
                          (unknown (stats st)))
                (sender_counts st)
                (moved st ++ [(filepath, ToArchive)]))
      else
        domain ← get_domain (dict_get email "from" "unknown");
        Some (State (disk st)
                (Counters (archive (stats st)) (review (stats st))
                          (unknown (stats st) + 1))
                (<[domain := default 0 (sender_counts st !! domain) + 1]>
                   (sender_counts st))
                (moved st))
  end.

Fixpoint run_loop (files : list string) (st : state) : option state :=
  match files with
  | [] => Some st
  | filepath :: rest => st' ← step st filepath; run_loop rest st'
  end.

Definition init (d : dirs) : state :=
  State d (Counters 0 0 0) ∅ [].

Definition main (d : dirs) : option state :=
  run_loop (sorted (glob_json (INBOX d))) (init d).

End Matcher.

End Triage.

(** ** scripts/sample_emails.py *)

Module Sample.

(** One element of [matches]: the file, the sender, the subject. *)
Definition entry : Type := string * string * string.

(** The test [if search:], which an absent and an empty search string
    both fail; it yields the string to look for. *)
Definition search_term (search : option string) : option string :=
  match search with
  | Some s => if String.eqb s "" then None else Some s
  | None => None
  end.

(** The body of the loop over [files], for one file. *)
Definition visit (folder : gmap string content) (search : option string)
    (matches : list entry) (f : string) : list entry :=
  match json_load folder f with
  | Parsed email =>
      let sender := dict_get email "from" "unknown" in
      let subject := dict_get email "subject" "no subject" in
      match search_term search with
      | Some s =>
          let search_lower := lower s in
          if negb (str_in search_lower (lower sender))
             && negb (str_in search_lower (lower subject))
          then matches
          else matches ++ [(f, sender, subject)]
      | None => matches ++ [(f, sender, subject)]
      end
  | LoadError e =>
      match search_term search with
      | Some _ => matches
      | None => matches ++ [(f, "error", e)]
      end
  end.

Definition collect (folder : gmap string content) (search : option string)
    : list entry :=
  foldl (visit folder search) [] (sorted (glob_json folder)).

(** [matches[-count:] if len(matches) > count else matches]. *)
Definition recent (count : Z) (matches : list entry) : list entry :=
  if (Z.of_nat (length matches) >? count)%Z
  then slice_from (- count) matches
  else matches.

(** [sample_emails(folder, count, search)]: [None] stands for a folder
    that does not exist.  The function prints the entries of [recent] and
    returns their file names; [sample_entries] is the former list and
    [sample_emails] the latter. *)
Definition sample_entries (folder : option (gmap string content))
    (count : Z) (search : option string) : list entry :=
  match folder with
  | None => []
  | Some files => recent count (collect files search)
  end.

Definition sample_emails (folder : option (gmap string content))
    (count : Z) (search : option string) : list string :=
  (λ e : entry, e.1.1) <$> sample_entries folder count search.

End Sample.

(** ** Notions used to state the properties *)

Import Triage Sample.

(** The address [get_domain] works on after its first statement: when
    the text holds a ["<"], what lies between the first ["<"] and the
    next ["<"] or [">"] (or the end of the text); the text itself
    otherwise. *)
Definition address (from_addr : string) : string :=
  if str_in "<" from_addr
  then before_first ">" (before_first "<" (after_first "<" from_addr))
  else from_addr.

(** [pat] occurs in [s] when letter case is ignored. *)
Definition contains_ci (pat s : string) : bool :=
  str_in (lower pat) (lower s).

(** The domain extractor as section 4.2 of the specification words it. *)
Definition spec_address (text : string) : string :=
  if str_in "<" text && str_in ">" (after_first "<" text)
  then before_first ">" (after_first "<" text)
  else text.

Definition spec_extract_domain (text : string) : string :=
  let addr := spec_address text in
  if str_in "@" addr then lower (after_first "@" addr)
  else lower (slice_to 50 text).

(** A file the triage run relocates: it parses and its sender matches
    one of the two sets.  [residue] is what the inbox keeps of it. *)
Definition matched (archive_set review_set : list string) (c : content)
    : bool :=
  match c with
  | Parsed email =>
      match classify archive_set review_set email with
      | Unknown => false
      | _ => true
      end
  | LoadError _ => false
  end.

Definition residue (archive_set review_set : list string) (c : content)
    : option content :=
  if matched archive_set review_set c then None else Some c.

(** The folders of [d] with the file [f] taken out of the inbox. *)
Definition without (f : string) (d : dirs) : dirs :=
  Dirs (delete f (INBOX d)) (TO_ARCHIVE d) (NEEDS_REVIEW d).

(** The inbox of [d] once the files of [processed] have gone through the
    loop of [main]. *)
Definition inbox_after (A R : list string) (d : dirs)
    (processed : list string) (f : string) : option content :=
  if bool_decide (f ∈ processed)
  then INBOX d !! f ≫= residue A R
  else INBOX d !! f.

(** The state of a run as it would be had [f] never been in the inbox. *)
Definition forget (f : string) (st : state) : state :=
  State (without f (disk st)) (stats st) (sender_counts st) (moved st).

(** The four ways an iteration of the loop of [main] can go. *)
Inductive step_case (A R : list string) (st : state) (f : string)
    (st' : state) : Prop :=
  | case_skip :
      (INBOX (disk st) !! f = None ∨
       ∃ msg, INBOX (disk st) !! f = Some (LoadError msg)) →
      st' = st → step_case A R st f st'
  | case_move email dst :
      INBOX (disk st) !! f = Some (Parsed email) →
      matched A R (Parsed email) = true →
      classify A R email =
        match dst with NeedsReview => Review | ToArchive => Archive end →
      INBOX (disk st') = delete f (INBOX (disk st)) →
      TO_ARCHIVE (disk st') =
        match dst with
        | ToArchive => <[f := Parsed email]> (TO_ARCHIVE (disk st))
        | NeedsReview => TO_ARCHIVE (disk st)
        end →
      NEEDS_REVIEW (disk st') =
        match dst with
        | NeedsReview => <[f := Parsed email]> (NEEDS_REVIEW (disk st))
        | ToArchive => NEEDS_REVIEW (disk st)
        end →
      stats st' =
        match dst with
        | ToArchive =>
            Counters (archive (stats st) + 1) (review (stats st))
                     (unknown (stats st))
        | NeedsReview =>
            Counters (archive (stats st)) (review (stats st) + 1)
                     (unknown (stats st))
        end →
      sender_counts st' = sender_counts st →
      moved st' = (moved st ++ [(f, dst)])%list →
      step_case A R st f st'
  | case_unknown email domain :
      INBOX (disk st) !! f = Some (Parsed email) →
      matched A R (Parsed email) = false →
      get_domain (dict_get email "from" "unknown") = Some domain →
      disk st' = disk st →
      stats st' =
        Counters (archive (stats st)) (review (stats st))
                 (unknown (stats st) + 1) →
      sender_counts st' =
        <[domain := default 0 (sender_counts st !! domain) + 1]>
          (sender_counts st) →
      moved st' = moved st →
      step_case A R st f st'.

(** A character that [lower] neither changes nor produces: testing for
    it before or after lowercasing is the same. *)
Definition caseless (c : ascii) : Prop :=
  ∀ a, Ascii.eqb (lower_char a) c = Ascii.eqb a c.

(** A piece of an address: text without ["<"], [">"] and ["@"]. *)
Definition plain (s : string) : bool :=
  negb (str_in "<" s) && negb (str_in ">" s) && negb (str_in "@" s).

(** ** The run file by file *)

#[global] Instance outcome_eq_dec : EqDecision outcome.
Proof. solve_decision. Defined.

#[global] Instance dest_eq_dec : EqDecision dest.
Proof. solve_decision. Defined.

(** What the run decides for the file [f] of [inbox]; [None] when the
    file is absent or does not parse. *)
Definition verdict (A R : list string) (inbox : gmap string content)
    (f : string) : option outcome :=
  match inbox !! f with
  | Some (Parsed email) => Some (classify A R email)
  | _ => None
  end.

(** The move the run makes for [f], if any. *)
Definition move_of (A R : list string) (inbox : gmap string content)
    (f : string) : option (string * dest) :=
  match verdict A R inbox f with
  | Some Review => Some (f, NeedsReview)
  | Some Archive => Some (f, ToArchive)
  | _ => None
  end.

(** The domain key the run counts [f] under, if any. *)
Definition unknown_key (A R : list string) (inbox : gmap string content)
    (f : string) : option string :=
  match inbox !! f with
  | Some (Parsed email) =>
      match classify A R email with
      | Unknown => get_domain (dict_get email "from" "unknown")
      | _ => None
      end
  | _ => None
  end.

(** A counter of a [defaultdict(int)]: absent until it is first
    incremented. *)
Definition counter (n : nat) : option nat :=
  match n with
  | 0 => None
  | S _ => Some n
  end.

(** The state of a run on [d] once the files of [processed], all
    different, have gone through the loop of [main], in that order. *)
Definition summary (A R : list string) (d : dirs) (processed : list string)
    (st : state) : Prop :=
  (∀ f, INBOX (disk st) !! f = inbox_after A R d processed f) ∧
  (∀ f, TO_ARCHIVE (disk st) !! f =
        if bool_decide (f ∈ processed ∧
                        verdict A R (INBOX d) f = Some Archive)
        then INBOX d !! f else TO_ARCHIVE d !! f) ∧
  (∀ f, NEEDS_REVIEW (disk st) !! f =
        if bool_decide (f ∈ processed ∧
                        verdict A R (INBOX d) f = Some Review)
        then INBOX d !! f else NEEDS_REVIEW d !! f) ∧
  archive (stats st) =
    length (filter (λ f, verdict A R (INBOX d) f = Some Archive) processed) ∧
  review (stats st) =
    length (filter (λ f, verdict A R (INBOX d) f = Some Review) processed) ∧
  unknown (stats st) =
    length (filter (λ f, verdict A R (INBOX d) f = Some Unknown) processed) ∧
  moved st = omap (move_of A R (INBOX d)) processed ∧
  (∀ k, sender_counts st !! k =
        counter (length (filter (λ f, unknown_key A R (INBOX d) f = Some k)
                           processed))).

(** The file [f] of [inbox] parses. *)
Definition parses (inbox : gmap string content) (f : string) : bool :=
  match inbox !! f with
  | Some (Parsed _) => true
  | _ => false
  end.

(** The folder a move goes to, and the branch of [main] that makes it. *)
Definition folder_of (dst : dest) (d : dirs) : gmap string content :=
  match dst with
  | ToArchive => TO_ARCHIVE d
  | NeedsReview => NEEDS_REVIEW d
  end.

Definition outcome_of (dst : dest) : outcome :=
  match dst with
  | ToArchive => Archive
  | NeedsReview => Review
  end.

(** The sum of the counts of a table. *)
Definition table_total (table : gmap string nat) : nat :=
  map_fold (λ _ n total, n + total) 0 table.

(** ** The report of [main] *)

(** [table[k] += 1] on a dictionary of counters.  A Python dictionary
    keeps its keys in the order of their first insertion: the items are
    a list in that order. *)
Fixpoint incr (k : string) (items : list (string * nat))
    : list (string * nat) :=
  match items with
  | [] => [(k, 1)]
  | (k', n) :: rest =>
      if String.eqb k' k then (k', n + 1) :: rest
      else (k', n) :: incr k rest
  end.

(** [sorted(l, key=key)]: by increasing key, elements of equal key in
    the order they have in [l]. *)
Fixpoint insert_by {X} (key : X → Z) (x : X) (l : list X) : list X :=
  match l with
  | [] => [x]
  | y :: rest =>
      if (key x <=? key y)%Z then x :: y :: rest
      else y :: insert_by key x rest
  end.

Fixpoint sorted_by {X} (key : X → Z) (l : list X) : list X :=
  match l with
  | [] => []
  | x :: rest => insert_by key x (sorted_by key rest)
  end.

(** The domain keys in the order the loop of [main] counts them, and
    [sender_counts.items()]: the table of the state with the order of
    its keys, which the [gmap] of the state does not record. *)
Definition unknown_keys (A R : list string) (inbox : gmap string content)
    : list string :=
  omap (unknown_key A R inbox) (sorted (glob_json inbox)).

Definition sender_items (A R : list string) (d : dirs)
    : list (string * nat) :=
  foldl (λ items k, incr k items) [] (unknown_keys A R (INBOX d)).

(** [sorted(sender_counts.items(), key=lambda x: -x[1])] and the lines
    the report prints, [sorted_senders[:60]]. *)
Definition sorted_senders (A R : list string) (d : dirs)
    : list (string * nat) :=
  sorted_by (λ x, (- Z.of_nat x.2)%Z) (sender_items A R d).

Definition report (A R : list string) (d : dirs) : list (string * nat) :=
  take 60 (sorted_senders A R d).

(** ** scripts/top_senders.py *)

Module TopSenders.

(** [Counter.most_common(n)]: the items by decreasing count, items of
    equal count in insertion order, cut to the first [n]; none for a
    negative [n]. *)
Definition most_common (n : Z) (items : list (string * nat))
    : list (string * nat) :=
  take (Z.to_nat n) (sorted_by (λ x, (- Z.of_nat x.2)%Z) items).

Section Script.
(** Whether the exception with the given message, raised while a file
    is read and decoded, is a [json.JSONDecodeError]: the [except]
    clause catches those and lets every other exception through. *)
Variable is_decode_error : string → bool.

(** The body of the loop, for one file; [None] is an exception that
    leaves the script. *)
Definition count_file (folder : gmap string content)
    (senders : list (string * nat)) (json_file : string)
    : option (list (string * nat)) :=
  match folder !! json_file with
  | None => None
  | Some (LoadError msg) => if is_decode_error msg then Some senders else None
  | Some (Parsed data) =>
      let sender := dict_get data "from" "" in
      if String.eqb sender "" then Some senders
      else Some (incr sender senders)
  end.

Fixpoint count_files (folder : gmap string content) (files : list string)
    (senders : list (string * nat)) : option (list (string * nat)) :=
  match files with
  | [] => Some senders
  | json_file :: rest =>
      senders' ← count_file folder senders json_file;
      count_files folder rest senders'
  end.

(** [main], with the command line already read: [files] is the order in
    which [glob] yields the files of the folder, [limit] the number of
    lines asked for.  The result is the lines printed, as pairs of a
    sender and its count. *)
Definition main (files : list string) (folder : gmap string content)
    (limit : Z) : option (list (string * nat)) :=
  senders ← count_files folder files [];
  Some (most_common limit senders).

End Script.

End TopSenders.

(** The sender [top_senders.py] counts the file [f] under, if any. *)
Definition sender_of (folder : gmap string content) (f : string)
    : option string :=
  match folder !! f with
  | Some (Parsed data) =>
      let sender := dict_get data "from" "" in
      if String.eqb sender "" then None else Some sender
  | _ => None
  end.

(** ** Facts about the string primitives *)

Lemma str_in_char c a s :
  str_in (String c "") (String a s) = Ascii.eqb a c || str_in (String c "") s.
Proof.
  simpl. destruct (ascii_dec c a) as [->|Hne].
  - rewrite Ascii.eqb_refl. by destruct s.
  - assert (Ascii.eqb a c = false) as ->; [|done].
    apply Ascii.eqb_neq. congruence.
Qed.

Lemma split_char c s :
  split c s =
  before_first c s ::
    (if str_in (String c "") s then split c (after_first c s) else []).
Proof.
  induction s as [|a s IH]; [done|].
  rewrite str_in_char. cbn [split before_first after_first].
  destruct (Ascii.eqb a c); [done|].
  rewrite IH. done.
Qed.

Lemma split_head c s : split c s !! 0%nat = Some (before_first c s).
Proof. by rewrite split_char. Qed.

Lemma split_second c s :
  str_in (String c "") s = true →
  split c s !! 1%nat = Some (before_first c (after_first c s)).
Proof. intros H. rewrite split_char, H. cbn. apply split_head. Qed.

Lemma split_second_none c s :
  str_in (String c "") s = false → split c s !! 1%nat = None.
Proof. intros H. by rewrite split_char, H. Qed.

(** [get_domain] in closed form. *)
Lemma get_domain_unfold s :
  get_domain s =
  Some (if str_in "@" (address s)
        then lower (before_first "@" (after_first "@" (address s)))
        else slice_to 50 (lower (address s))).
Proof.
  unfold get_domain, address.
  destruct (str_in "<" s) eqn:Hlt.
  - rewrite (split_second "<" s Hlt). cbn [mbind option_bind].
    rewrite split_head. cbn [mbind option_bind].
    destruct (str_in "@" _) eqn:Hat; [|done].
    by rewrite (split_second "@" _ Hat).
  - cbn [mbind option_bind].
    destruct (str_in "@" s) eqn:Hat; [|done].
    by rewrite (split_second "@" _ Hat).
Qed.

(** The examples of section 8 of the specification. *)
Example get_domain_display_name :
  get_domain "Jane Doe <jane@example.com>" = Some "example.com".
Proof. reflexivity. Qed.

Example get_domain_bare_address :
  get_domain "jane@example.com" = Some "example.com".
Proof. reflexivity. Qed.

Example get_domain_not_an_email :
  get_domain "not-an-email" = Some "not-an-email".
Proof. reflexivity. Qed.

Example main_three_records :
  let d :=
    Dirs {[ "1.json" := Parsed {[ "from" := "x@substack.com" ]};
            "2.json" := Parsed {[ "from" := "y@unknown.org" ]};
            "3.json" := Parsed {[ "from" := "z@unknown.org" ]} ]} ∅ ∅ in
  (λ st, (stats st, sender_counts st, moved st)) <$>
    main ARCHIVE_SENDERS REVIEW_SENDERS d =
  Some (Counters 1 0 2, {[ "unknown.org" := 2 ]}, [("1.json", ToArchive)]).
Proof. by vm_compute. Qed.

(** ** The domain extractor *)

(** C8.  [get_domain] never raises: every input string, the empty one
    included, yields a string, and the empty input yields the empty
    string. *)
Theorem get_domain_total :
  (∀ from_addr, ∃ domain, get_domain from_addr = Some domain) ∧
  get_domain "" = Some "".
Proof.
  split; [|done].
  intros s. rewrite get_domain_unfold. eauto.
Qed.

(** C3, as the code has it.  When the derived address holds an ["@"],
    [get_domain] returns, lowercased, the text between the first ["@"]
    and the next one, or up to the end of the address when there is no
    second ["@"]: a further ["@"] and what follows it are dropped. *)
Theorem get_domain_at from_addr :
  str_in "@" (address from_addr) = true →
  get_domain from_addr =
  Some (lower (before_first "@" (after_first "@" (address from_addr)))).
Proof. intros H. by rewrite get_domain_unfold, H. Qed.

Lemma get_domain_at_witness :
  str_in "@" (address "Jane Doe <jane@Example.com>") = true ∧
  get_domain "Jane Doe <jane@Example.com>" = Some "example.com".
Proof.
  split; [reflexivity|].
  rewrite (get_domain_at "Jane Doe <jane@Example.com>"); reflexivity.
Defined.

(** The sentence of C3 fails on an address with two ["@"]: the text
    after the first ["@"] is ["b@c"], the code returns ["b"]. *)
Lemma get_domain_at_counterexample :
  spec_address "a@b@c" = "a@b@c" ∧
  address "a@b@c" = "a@b@c" ∧
  str_in "@" (address "a@b@c") = true ∧
  lower (after_first "@" (address "a@b@c")) = "b@c" ∧
  get_domain "a@b@c" = Some "b" ∧
  get_domain "a@b@c" ≠ Some (lower (after_first "@" (address "a@b@c"))).
Proof. by repeat split. Qed.

(** C4, as the code has it.  With no ["@"] in the derived address,
    [get_domain] returns the first 50 characters of the lowercased
    derived address, and the address is derived from the angle bracket
    whenever the text holds a ["<"], closed by a [">"] or not; a text
    without ["<"] is its own address, so there the result is the first
    50 characters of the lowercased text. *)
Theorem get_domain_fallback from_addr :
  str_in "@" (address from_addr) = false →
  get_domain from_addr = Some (slice_to 50 (lower (address from_addr))) ∧
  address from_addr =
    (if str_in "<" from_addr
     then before_first ">" (before_first "<" (after_first "<" from_addr))
     else from_addr) ∧
  (str_in "<" from_addr = false →
   get_domain from_addr = Some (slice_to 50 (lower from_addr))).
Proof.
  intros H. rewrite get_domain_unfold, H. repeat split.
  intros Hlt. unfold address. by rewrite Hlt.
Qed.

Lemma get_domain_fallback_witness :
  str_in "@" (address "Not-An-Email") = false ∧
  get_domain "Not-An-Email" = Some "not-an-email".
Proof.
  split; [reflexivity|].
  destruct (get_domain_fallback "Not-An-Email") as (-> & _); reflexivity.
Defined.

(** The sentence of C4 fails twice.  On ["Bob <bob>"] the fallback is
    taken from the bracketed address, not from the original text; on
    ["x<y"], which has no [">"], the bracket rule applies all the same. *)
Lemma get_domain_fallback_counterexample :
  (str_in "@" (address "Bob <bob>") = false ∧
   str_in "@" (spec_address "Bob <bob>") = false ∧
   lower (slice_to 50 "Bob <bob>") = "bob <bob>" ∧
   get_domain "Bob <bob>" = Some "bob" ∧
   get_domain "Bob <bob>" ≠ Some (lower (slice_to 50 "Bob <bob>"))) ∧
  (str_in ">" (after_first "<" "x<y") = false ∧
   spec_address "x<y" = "x<y" ∧
   address "x<y" = "y" ∧
   get_domain "x<y" = Some "y" ∧
   get_domain "x<y" ≠ Some (spec_extract_domain "x<y")).
Proof. by repeat split. Qed.

(** ** The sender matcher *)

Lemma any_pattern_in_true patterns s :
  any_pattern_in patterns s = true ↔
  ∃ pattern, pattern ∈ patterns ∧ str_in pattern s = true.
Proof.
  induction patterns as [|p ps IH]; simpl.
  - split; [done|]. intros (p & Hp & _). by apply elem_of_nil in Hp.
  - destruct (str_in p s) eqn:Hp.
    + split; [|done]. intros _. exists p. split; [left|done].
    + rewrite IH. split.
      * intros (q & Hq & Hin). exists q. split; [by right|done].
      * intros (q & Hq & Hin). apply elem_of_cons in Hq as [->|Hq].
        -- congruence.
        -- eauto.
Qed.

Lemma lower_char_idemp c : lower_char (lower_char c) = lower_char c.
Proof. destruct c as [[] [] [] [] [] [] [] []]; reflexivity. Qed.

Lemma lower_idemp s : lower (lower s) = lower s.
Proof.
  induction s as [|c s IH]; [done|].
  simpl. by rewrite lower_char_idemp, IH.
Qed.

Lemma prefix_lower_fixed pat s :
  String.prefix pat (lower s) = true → lower pat = pat.
Proof.
  revert s. induction pat as [|c pat IH]; intros s; [done|].
  destruct s as [|a s]; simpl; [done|].
  destruct (ascii_dec c (lower_char a)) as [->|]; [|done].
  intros H. by rewrite lower_char_idemp, (IH s H).
Qed.

(** Only a pattern free of capital letters can occur in a lowercased
    sender. *)
Lemma str_in_lower_fixed pat s :
  str_in pat (lower s) = true → lower pat = pat.
Proof.
  induction s as [|a s IH]; simpl.
  - rewrite orb_false_r. apply (prefix_lower_fixed pat "").
  - intros [H|H]%orb_true_iff; [|by apply IH].
    by apply (prefix_lower_fixed pat (String a s)).
Qed.

Lemma classify_review archive_set review_set email :
  needs_review review_set email = true →
  classify archive_set review_set email = Review.
Proof. unfold classify. by intros ->. Qed.

Lemma classify_archive archive_set review_set email :
  needs_review review_set email = false →
  should_archive archive_set email = true →
  classify archive_set review_set email = Archive.
Proof. unfold classify. by intros -> ->. Qed.

Lemma classify_unknown archive_set review_set email :
  needs_review review_set email = false →
  should_archive archive_set email = false →
  classify archive_set review_set email = Unknown.
Proof. unfold classify. by intros -> ->. Qed.

(** What one iteration does, by the branch it takes. *)
Lemma step_skip archive_set review_set st f :
  (INBOX (disk st) !! f = None ∨
   ∃ msg, INBOX (disk st) !! f = Some (LoadError msg)) →
  step archive_set review_set st f = Some st.
Proof. unfold step. by intros [->|[msg ->]]. Qed.

Lemma step_review archive_set review_set st f email :
  INBOX (disk st) !! f = Some (Parsed email) →
  classify archive_set review_set email = Review →
  step archive_set review_set st f =
  Some (State
          (Dirs (delete f (INBOX (disk st))) (TO_ARCHIVE (disk st))
                (<[f := Parsed email]> (NEEDS_REVIEW (disk st))))
          (Counters (archive (stats st)) (review (stats st) + 1)
                    (unknown (stats st)))
          (sender_counts st)
          (moved st ++ [(f, NeedsReview)])).
Proof.
  unfold step, classify, shutil_move. intros -> H.
  destruct (needs_review _ _); [done|].
  by destruct (should_archive _ _).
Qed.

Lemma step_archive archive_set review_set st f email :
  INBOX (disk st) !! f = Some (Parsed email) →
  classify archive_set review_set email = Archive →
  step archive_set review_set st f =
  Some (State
          (Dirs (delete f (INBOX (disk st)))
                (<[f := Parsed email]> (TO_ARCHIVE (disk st)))
                (NEEDS_REVIEW (disk st)))
          (Counters (archive (stats st) + 1) (review (stats st))
                    (unknown (stats st)))
          (sender_counts st)
          (moved st ++ [(f, ToArchive)])).
Proof.
  unfold step, classify, shutil_move. intros -> H.
  destruct (needs_review _ _); [done|].
  by destruct (should_archive _ _).
Qed.

Lemma step_unknown archive_set review_set st f email :
  INBOX (disk st) !! f = Some (Parsed email) →
  classify archive_set review_set email = Unknown →
  ∃ domain,
    get_domain (dict_get email "from" "unknown") = Some domain ∧
    step archive_set review_set st f =
    Some (State (disk st)
            (Counters (archive (stats st)) (review (stats st))
                      (unknown (stats st) + 1))
            (<[domain := default 0 (sender_counts st !! domain) + 1]>
               (sender_counts st))
            (moved st)).
Proof.
  unfold step, classify. intros -> H.
  destruct (needs_review _ _); [done|].
  destruct (should_archive _ _); [done|].
  rewrite get_domain_unfold. eauto.
Qed.

(** ** The triage run *)

Section Run.
Variables (A R : list string).

Lemma step_total st f :
  ∃ st', step A R st f = Some st' ∧ step_case A R st f st'.
Proof.
  destruct (INBOX (disk st) !! f) as [[msg|email]|] eqn:Hf.
  - exists st. split; [apply step_skip; eauto|]. apply case_skip; eauto.
  - destruct (classify A R email) eqn:Hc.
    + eexists. split; [by apply step_review|].
      apply (case_move _ _ _ _ _ email NeedsReview); simpl; try done.
      by rewrite Hc.
    + eexists. split; [by apply step_archive|].
      apply (case_move _ _ _ _ _ email ToArchive); simpl; try done.
      by rewrite Hc.
    + destruct (step_unknown A R st f email Hf Hc) as (domain & Hd & Hs).
      eexists. split; [exact Hs|].
      apply (case_unknown _ _ _ _ _ email domain); simpl; try done.
      by rewrite Hc.
  - exists st. split; [apply step_skip; eauto|]. apply case_skip; eauto.
Qed.

Lemma step_inv st f st' : step A R st f = Some st' → step_case A R st f st'.
Proof.
  intros H. destruct (step_total st f) as (st'' & Hs & Hc). congruence.
Qed.

Lemma run_loop_total files st : ∃ st', run_loop A R files st = Some st'.
Proof.
  revert st. induction files as [|f files IH]; intros st; simpl; [eauto|].
  destruct (step_total st f) as (st1 & -> & _). simpl. apply IH.
Qed.

(** A property every iteration preserves holds when the loop ends. *)
Lemma run_loop_invariant (P : state → Prop) :
  (∀ st f st', P st → step_case A R st f st' → P st') →
  ∀ files st st', P st → run_loop A R files st = Some st' → P st'.
Proof.
  intros Hstep. induction files as [|f files IH]; intros st st' HP; simpl.
  - by intros [= <-].
  - destruct (step_total st f) as (st1 & -> & Hc). simpl.
    apply IH. by eapply Hstep.
Qed.

End Run.

(** ** Precedence of the review set *)

(** C2.  When the normalized sender holds an entry of the review set and
    an entry of the archive set, the record is classified [Review]: the
    iteration of [main] moves it to [NEEDS_REVIEW], counts it under
    [review], and leaves the archive folder and its counter alone. *)
Theorem review_takes_precedence (A R : list string) email r a :
  r ∈ R → a ∈ A →
  str_in r (lower (dict_get email "from" "")) = true →
  str_in a (lower (dict_get email "from" "")) = true →
  classify A R email = Review ∧
  ∀ st f, INBOX (disk st) !! f = Some (Parsed email) →
    ∃ st', step A R st f = Some st' ∧
      moved st' = (moved st ++ [(f, NeedsReview)])%list ∧
      NEEDS_REVIEW (disk st') !! f = Some (Parsed email) ∧
      INBOX (disk st') !! f = None ∧
      TO_ARCHIVE (disk st') = TO_ARCHIVE (disk st) ∧
      review (stats st') = review (stats st) + 1 ∧
      archive (stats st') = archive (stats st).
Proof.
  intros Hr Ha Hinr Hina.
  assert (classify A R email = Review) as Hc.
  { apply classify_review. unfold needs_review.
    apply any_pattern_in_true. eauto. }
  split; [done|]. intros st f Hf.
  eexists. split; [by apply step_review|]. simpl.
  by rewrite lookup_insert_eq, lookup_delete_eq.
Qed.

Lemma review_takes_precedence_witness :
  let email : gmap string string := {[ "from" := "Billing <Billing@Shop.com>" ]} in
  classify ["shop.com"] ["billing@shop.com"] email = Review.
Proof.
  intros email.
  apply (review_takes_precedence ["shop.com"] ["billing@shop.com"] email
           "billing@shop.com" "shop.com").
  - apply list_elem_of_In; simpl; tauto.
  - apply list_elem_of_In; simpl; tauto.
  - vm_compute; reflexivity.
  - vm_compute; reflexivity.
Defined.

(** C9.  The shipped review set is empty: [needs_review] is [False] on
    every email, and a run moves nothing to [NEEDS_REVIEW] and ends with
    [review] at 0. *)
Theorem shipped_review_set_is_empty :
  (∀ email, needs_review REVIEW_SENDERS email = false) ∧
  ∀ d, ∃ st,
    main ARCHIVE_SENDERS REVIEW_SENDERS d = Some st ∧
    review (stats st) = 0 ∧
    NEEDS_REVIEW (disk st) = NEEDS_REVIEW d ∧
    Forall (λ m, m.2 = ToArchive) (moved st).
Proof.
  split; [done|]. intros d. unfold main.
  destruct (run_loop_total ARCHIVE_SENDERS REVIEW_SENDERS
              (sorted (glob_json (INBOX d))) (init d)) as [st Hst].
  exists st. split; [done|].
  revert Hst.
  apply (run_loop_invariant ARCHIVE_SENDERS REVIEW_SENDERS
           (λ st, review (stats st) = 0 ∧
                  NEEDS_REVIEW (disk st) = NEEDS_REVIEW d ∧
                  Forall (λ m, m.2 = ToArchive) (moved st))); [|by repeat split].
  intros st0 f st' (Hr & Hn & Hm) Hcase.
  destruct Hcase as [_ ->|email dst _ _ Hc _ _ Hnr Hs _ Hmv
                    |email domain _ _ _ Hd Hs _ Hmv].
  - done.
  - destruct dst.
    2:{ unfold classify in Hc. simpl in Hc.
        by destruct (should_archive _ _). }
    rewrite Hs, Hnr, Hmv. simpl. repeat split; [done..|].
    apply Forall_app. split; [done|]. by apply Forall_singleton.
  - rewrite Hd, Hs, Hmv. done.
Qed.

(** ** The shipped archive set *)

(** An entry of the archive set that is written in lower case archives
    every sender that holds it, whatever the case of the sender. *)
Lemma lowercase_entry_archives pattern email :
  pattern ∈ ARCHIVE_SENDERS →
  lower pattern = pattern →
  contains_ci pattern (dict_get email "from" "") = true →
  classify ARCHIVE_SENDERS REVIEW_SENDERS email = Archive ∧
  ∀ st f, INBOX (disk st) !! f = Some (Parsed email) →
    ∃ st', step ARCHIVE_SENDERS REVIEW_SENDERS st f = Some st' ∧
      moved st' = (moved st ++ [(f, ToArchive)])%list ∧
      TO_ARCHIVE (disk st') !! f = Some (Parsed email) ∧
      INBOX (disk st') !! f = None ∧
      archive (stats st') = archive (stats st) + 1.
Proof.
  unfold contains_ci. intros Hin -> Hsub.
  assert (classify ARCHIVE_SENDERS REVIEW_SENDERS email = Archive) as Hc.
  { apply classify_archive; [done|]. unfold should_archive.
    apply any_pattern_in_true. eauto. }
  split; [done|]. intros st f Hf.
  eexists. split; [by apply step_archive|]. simpl.
  by rewrite lookup_insert_eq, lookup_delete_eq.
Qed.

(** All but two entries of the shipped set are in lower case. *)
Lemma archive_entries_with_capitals :
  filter (λ pattern, lower pattern ≠ pattern) ARCHIVE_SENDERS =
  ["NoReply.ODD@dhl.com"; "Publications.spie.org"].
Proof. by vm_compute. Qed.

(** C1 at the entry ["NoReply.ODD@dhl.com"] of [ARCHIVE_SENDERS].  The
    entry holds capital letters while the sender is lowercased before
    the test, so the entry occurs in no normalized sender at all.  A mail
    from that very address holds the entry, holds no review entry, and is
    still classified [Unknown]: the run leaves it in the inbox and counts
    it under [unknown]. *)
Theorem archive_entry_never_matches :
  let email : gmap string string :=
    {[ "from" := "DHL <NoReply.ODD@dhl.com>" ]} in
  let d := Dirs {[ "0001.json" := Parsed email ]} ∅ ∅ in
  "NoReply.ODD@dhl.com" ∈ ARCHIVE_SENDERS ∧
  str_in "NoReply.ODD@dhl.com" (dict_get email "from" "") = true ∧
  contains_ci "NoReply.ODD@dhl.com" (dict_get email "from" "") = true ∧
  (∀ sender, str_in "NoReply.ODD@dhl.com" (lower sender) = false) ∧
  needs_review REVIEW_SENDERS email = false ∧
  should_archive ARCHIVE_SENDERS email = false ∧
  classify ARCHIVE_SENDERS REVIEW_SENDERS email = Unknown ∧
  main ARCHIVE_SENDERS REVIEW_SENDERS d =
    Some (State d (Counters 0 0 1) {[ "dhl.com" := 1 ]} []).
Proof.
  intros email d. split_and!.
  - apply list_elem_of_In. vm_compute. tauto.
  - by vm_compute.
  - by vm_compute.
  - intros sender.
    destruct (str_in _ (lower sender)) eqn:H; [|done].
    by apply str_in_lower_fixed in H.
  - done.
  - by vm_compute.
  - by vm_compute.
  - by vm_compute.
Qed.

(** ** The inbox after a run *)

Lemma elem_of_sorted_glob (folder : gmap string content) f :
  f ∈ sorted (glob_json folder) ↔
  ends_with ".json" f = true ∧ is_Some (folder !! f).
Proof.
  unfold sorted, glob_json.
  by rewrite merge_sort_Permutation, list_elem_of_filter, elem_of_elements,
    elem_of_dom.
Qed.

Section Inbox.
Variables (A R : list string) (d : dirs).

Lemma step_inbox_after processed st f st' :
  (∀ n, INBOX (disk st) !! n = inbox_after A R d processed n) →
  step_case A R st f st' →
  ∀ n, INBOX (disk st') !! n = inbox_after A R d (f :: processed) n.
Proof.
  intros Hinv Hcase n. pose proof (Hinv n) as Hn.
  unfold inbox_after in *.
  destruct (decide (n = f)) as [->|Hne].
  - rewrite (bool_decide_eq_true_2 (f ∈ f :: processed)) by left.
    destruct Hcase as [Hf ->|email dst Hf Hm _ Hi _ _ _ _ _
                      |email domain Hf Hm _ Hd _ _ _].
    + case_bool_decide; [done|]. rewrite Hn in Hf |- *.
      destruct Hf as [Hf|[msg Hf]]; by rewrite Hf.
    + rewrite Hi, lookup_delete_eq. rewrite Hf in Hn.
      case_bool_decide.
      * destruct (INBOX d !! f) as [c|]; [|done]. simpl in Hn.
        unfold residue in Hn. destruct (matched A R c) eqn:Hc; [done|].
        injection Hn as <-. congruence.
      * rewrite <- Hn. simpl. unfold residue. by rewrite Hm.
    + rewrite Hd, Hf. rewrite Hf in Hn.
      case_bool_decide; [done|].
      rewrite <- Hn. simpl. unfold residue. by rewrite Hm.
  - assert (bool_decide (n ∈ f :: processed) = bool_decide (n ∈ processed))
      as ->.
    { apply bool_decide_ext. rewrite elem_of_cons. tauto. }
    destruct Hcase as [Hf ->|email dst Hf Hm _ Hi _ _ _ _ _
                      |email domain Hf Hm _ Hd _ _ _].
    + done.
    + by rewrite Hi, lookup_delete_ne.
    + by rewrite Hd.
Qed.

Lemma run_loop_inbox_after files : ∀ processed st st',
  (∀ n, INBOX (disk st) !! n = inbox_after A R d processed n) →
  run_loop A R files st = Some st' →
  ∀ n, INBOX (disk st') !! n = inbox_after A R d (files ++ processed) n.
Proof.
  induction files as [|f files IH]; intros processed st st' Hinv; simpl.
  - by intros [= <-].
  - destruct (step_total A R st f) as (st1 & -> & Hcase). simpl.
    intros Hrun n.
    rewrite (IH (f :: processed) st1 st'
               (step_inbox_after processed st f st1 Hinv Hcase) Hrun n).
    unfold inbox_after.
    assert (bool_decide (n ∈ (files ++ f :: processed)%list) =
            bool_decide (n ∈ (f :: files ++ processed)%list)) as ->; [|done].
    apply bool_decide_ext.
    rewrite elem_of_app, !elem_of_cons, elem_of_app. tauto.
Qed.

(** What a run leaves in the inbox: of the files named [*.json], those
    that do not parse and those whose sender matches neither set; every
    other file as it was. *)
Lemma main_inbox st :
  main A R d = Some st →
  ∀ f, INBOX (disk st) !! f =
       if ends_with ".json" f then INBOX d !! f ≫= residue A R
       else INBOX d !! f.
Proof.
  unfold main. intros Hrun f.
  rewrite (run_loop_inbox_after _ [] (init d) st (λ n, eq_refl) Hrun f).
  unfold inbox_after. rewrite app_nil_r.
  case_bool_decide as Hin; rewrite elem_of_sorted_glob in Hin.
  - by destruct Hin as [-> _].
  - destruct (ends_with ".json" f); [|done].
    destruct (INBOX d !! f) eqn:Hf; [|done].
    destruct Hin. eauto.
Qed.

End Inbox.

(** A loop over files none of which matches changes no folder and makes
    no move. *)
Lemma run_loop_quiet (A R : list string) files : ∀ st,
  (∀ f c, f ∈ files → INBOX (disk st) !! f = Some c → matched A R c = false) →
  ∃ st', run_loop A R files st = Some st' ∧
    disk st' = disk st ∧ moved st' = moved st ∧
    archive (stats st') = archive (stats st) ∧
    review (stats st') = review (stats st).
Proof.
  induction files as [|f files IH]; intros st Hq; simpl; [by eauto 10|].
  destruct (step_total A R st f) as (st1 & -> & Hcase). simpl.
  assert (disk st1 = disk st ∧ moved st1 = moved st ∧
          archive (stats st1) = archive (stats st) ∧
          review (stats st1) = review (stats st)) as (Hd & Hm & Ha & Hr).
  { destruct Hcase as [Hf ->|email dst Hf Hm _ _ _ _ _ _ _
                      |email domain _ _ _ Hd Hs _ Hm]; [done| |].
    - rewrite (Hq f (Parsed email)) in Hm; [done|left|done].
    - by rewrite Hd, Hs, Hm. }
  destruct (IH st1) as (st' & Hrun & Hd' & Hm' & Ha' & Hr').
  { intros g c Hg. rewrite Hd. apply Hq. by right. }
  exists st'. split; [done|]. split_and!; congruence.
Qed.

(** C6.  A second run right after a first one makes no move and leaves
    the three folders as they are: each file the first run matched has
    left the inbox, and each file named [*.json] that is still there and
    parses is classified [Unknown] again. *)
Theorem second_run_moves_nothing (A R : list string) (d : dirs) :
  ∃ st1 st2,
    main A R d = Some st1 ∧
    main A R (disk st1) = Some st2 ∧
    moved st2 = [] ∧
    disk st2 = disk st1 ∧
    archive (stats st2) = 0 ∧ review (stats st2) = 0 ∧
    Forall (λ m, INBOX (disk st1) !! m.1 = None) (moved st1) ∧
    (∀ f c, ends_with ".json" f = true → INBOX d !! f = Some c →
            matched A R c = true → INBOX (disk st1) !! f = None) ∧
    (∀ f email, ends_with ".json" f = true →
            INBOX (disk st1) !! f = Some (Parsed email) →
            classify A R email = Unknown).
Proof.
  destruct (run_loop_total A R (sorted (glob_json (INBOX d))) (init d))
    as [st1 Hst1].
  fold (main A R d) in Hst1.
  pose proof (main_inbox A R d st1 Hst1) as Hinbox.
  assert (∀ f c, ends_with ".json" f = true →
            INBOX (disk st1) !! f = Some c → matched A R c = false) as Hleft.
  { intros f c Hj. rewrite Hinbox, Hj.
    destruct (INBOX d !! f) as [c'|]; [|done]. simpl. unfold residue.
    destruct (matched A R c') eqn:Hc; [done|]. by intros [= <-]. }
  destruct (run_loop_quiet A R (sorted (glob_json (INBOX (disk st1))))
              (init (disk st1))) as (st2 & Hst2 & Hd & Hm & Ha & Hr).
  { intros f c [Hj _]%elem_of_sorted_glob. by apply Hleft. }
  exists st1, st2. split_and!; try done.
  - revert Hst1. unfold main.
    apply (run_loop_invariant A R
             (λ st, Forall (λ m, INBOX (disk st) !! m.1 = None) (moved st)));
      [|by apply Forall_nil].
    intros st f st' Hall Hcase.
    destruct Hcase as [_ ->|email dst _ _ _ Hi _ _ _ _ Hmv
                      |email domain _ _ _ Hdk _ _ Hmv].
    + done.
    + rewrite Hmv, Hi. apply Forall_app. split.
      * eapply Forall_impl; [exact Hall|]. intros m Hnone. simpl in *.
        rewrite lookup_delete. by case_decide.
      * apply Forall_singleton. simpl. apply lookup_delete_eq.
    + by rewrite Hmv, Hdk.
  - intros f c Hj Hf Hc. rewrite Hinbox, Hj, Hf. simpl.
    unfold residue. by rewrite Hc.
  - intros f email Hj Hf. specialize (Hleft f _ Hj Hf). simpl in Hleft.
    by destruct (classify A R email).
Qed.

(** ** Files that do not parse *)

Lemma StronglySorted_filter {X} (rel : relation X) (P : X → Prop)
    `{∀ x, Decision (P x)} (l : list X) :
  StronglySorted rel l → StronglySorted rel (filter P l).
Proof.
  induction 1 as [|x l Hl IH Hx]; [constructor|].
  rewrite filter_cons. case_decide; [|done].
  constructor; [done|].
  apply Forall_forall. intros y [_ Hy]%list_elem_of_filter.
  by eapply Forall_forall in Hx.
Qed.

Lemma sorted_strongly l : StronglySorted String.le (sorted l).
Proof. apply StronglySorted_merge_sort; apply _. Qed.

(** Taking a file out of a folder takes it out of the sorted listing and
    changes nothing else in it. *)
Lemma sorted_glob_delete (folder : gmap string content) f :
  sorted (glob_json (delete f folder)) =
  filter (λ g, g ≠ f) (sorted (glob_json folder)).
Proof.
  apply (StronglySorted_unique String.le).
  - apply sorted_strongly.
  - apply StronglySorted_filter, sorted_strongly.
  - unfold sorted. rewrite !merge_sort_Permutation.
    apply NoDup_Permutation.
    + apply NoDup_filter, NoDup_elements.
    + apply NoDup_filter, NoDup_filter, NoDup_elements.
    + intros g. unfold glob_json.
      rewrite !list_elem_of_filter, !elem_of_elements, dom_delete_L.
      rewrite elem_of_difference, elem_of_singleton. tauto.
Qed.

Section Unparsable.
Variables (A R : list string) (bad : string) (msg : string).

Lemma step_forget st f st' :
  f ≠ bad →
  step A R st f = Some st' →
  step A R (forget bad st) f = Some (forget bad st') ∧
  INBOX (disk st') !! bad = INBOX (disk st) !! bad.
Proof.
  intros Hne. unfold step, forget, shutil_move. simpl.
  rewrite lookup_delete_ne by done.
  destruct (INBOX (disk st) !! f) as [[e|email]|]; simpl.
  - by intros [= <-].
  - destruct (needs_review R email); simpl.
    { intros [= <-]. simpl. unfold without. simpl.
      rewrite lookup_delete_ne by done.
      split; [|done]. by rewrite (delete_delete _ f bad). }
    destruct (should_archive A email); simpl.
    { intros [= <-]. simpl. unfold without. simpl.
      rewrite lookup_delete_ne by done.
      split; [|done]. by rewrite (delete_delete _ f bad). }
    destruct (get_domain _); simpl; [|done].
    by intros [= <-].
  - by intros [= <-].
Qed.

Lemma run_loop_forget files : ∀ st st',
  INBOX (disk st) !! bad = Some (LoadError msg) →
  run_loop A R files st = Some st' →
  run_loop A R (filter (λ g, g ≠ bad) files) (forget bad st) =
    Some (forget bad st') ∧
  INBOX (disk st') !! bad = Some (LoadError msg).
Proof.
  induction files as [|f files IH]; intros st st' Hbad; simpl.
  - by intros [= <-].
  - rewrite filter_cons. destruct (decide (f ≠ bad)) as [Hne|Heq].
    + destruct (step A R st f) as [st1|] eqn:Hstep; simpl; [|done].
      destruct (step_forget st f st1 Hne Hstep) as [-> Hkeep]. simpl.
      apply IH. by rewrite Hkeep.
    + apply dec_stable in Heq as ->.
      rewrite (step_skip A R st bad) by eauto. simpl. by apply IH.
Qed.

End Unparsable.

(** C5.  A file that does not parse is skipped: its iteration leaves the
    state of the run as it is, the file is still in the inbox when the
    run ends and no move names it, and the run gives the statistics, the
    domain table, the moves and the folders it gives when the file is
    not in the inbox at all. *)
Theorem unparsable_record_is_skipped (A R : list string) d bad msg :
  INBOX d !! bad = Some (LoadError msg) →
  (∀ st, INBOX (disk st) !! bad = Some (LoadError msg) →
         step A R st bad = Some st) ∧
  ∃ st,
    main A R d = Some st ∧
    INBOX (disk st) !! bad = Some (LoadError msg) ∧
    Forall (λ m, m.1 ≠ bad) (moved st) ∧
    main A R (without bad d) = Some (forget bad st).
Proof.
  intros Hbad. split.
  { intros st Hst. apply step_skip. eauto. }
  destruct (run_loop_total A R (sorted (glob_json (INBOX d))) (init d))
    as [st Hst].
  exists st. split; [done|].
  destruct (run_loop_forget A R bad msg _ (init d) st Hbad Hst)
    as [Hrun Hkeep].
  split_and!; [done| |].
  - revert Hst.
    apply (run_loop_invariant A R
      (λ st, INBOX (disk st) !! bad = Some (LoadError msg) ∧
             Forall (λ m, m.1 ≠ bad) (moved st))); [|by split].
    intros st0 f st' [Hin Hall] Hcase.
    destruct Hcase as [_ ->|email dst Hf _ _ Hi _ _ _ _ Hmv
                      |email domain _ _ _ Hdk _ _ Hmv]; [done| |].
    + assert (f ≠ bad) as Hne by congruence.
      rewrite Hi, Hmv, lookup_delete_ne by done. split; [done|].
      apply Forall_app. split; [done|]. by apply Forall_singleton.
    + by rewrite Hdk, Hmv.
  - unfold main. simpl. by rewrite sorted_glob_delete.
Qed.

Lemma unparsable_record_is_skipped_witness :
  let d := Dirs {[ "0001.json" := LoadError "Expecting value";
                   "0002.json" := Parsed {[ "from" := "news@substack.com" ]} ]}
             ∅ ∅ in
  ∃ st,
    main ARCHIVE_SENDERS REVIEW_SENDERS d = Some st ∧
    INBOX (disk st) !! "0001.json" = Some (LoadError "Expecting value") ∧
    Forall (λ m, m.1 ≠ "0001.json") (moved st) ∧
    main ARCHIVE_SENDERS REVIEW_SENDERS (without "0001.json" d) =
      Some (forget "0001.json" st).
Proof.
  intros d.
  apply (unparsable_record_is_skipped ARCHIVE_SENDERS REVIEW_SENDERS d
           "0001.json" "Expecting value").
  reflexivity.
Defined.

(** ** The sampling operation *)

Section Sampling.
Variables (folder : gmap string content) (search : option string).

Lemma visit_app matches f :
  visit folder search matches f = (matches ++ visit folder search [] f)%list.
Proof.
  unfold visit. repeat case_match; by rewrite ?app_nil_r.
Qed.

Lemma foldl_visit files : ∀ matches,
  foldl (visit folder search) matches files =
  (matches ++ (files ≫= visit folder search []))%list.
Proof.
  induction files as [|f files IH]; intros matches.
  - simpl. by rewrite app_nil_r.
  - rewrite bind_cons. cbn [foldl]. rewrite IH, visit_app.
    by rewrite app_assoc.
Qed.

(** [matches] holds, file after file in sorted order, what each file
    contributes. *)
Lemma collect_bind :
  collect folder search = sorted (glob_json folder) ≫= visit folder search [].
Proof. unfold collect. by rewrite foldl_visit. Qed.

Lemma visit_name f (e : entry) : e ∈ visit folder search [] f → e.1.1 = f.
Proof.
  unfold visit.
  repeat case_match; simpl;
    rewrite ?list_elem_of_singleton; try (by intros ->);
    by intros ?%elem_of_nil.
Qed.

Lemma visit_names f :
  (λ e : entry, e.1.1) <$> visit folder search [] f =
  if decide (visit folder search [] f ≠ []) then [f] else [].
Proof.
  unfold visit.
  destruct (json_load folder f) as [e|email];
    destruct (search_term search) as [s|]; simpl;
    try destruct (negb _ && negb _); simpl; try case_decide; done.
Qed.

(** The file names of [matches] are those of the sorted listing that
    contribute an entry, in the order of the listing. *)
Lemma collect_names :
  (λ e : entry, e.1.1) <$> collect folder search =
  filter (λ f, visit folder search [] f ≠ []) (sorted (glob_json folder)).
Proof.
  rewrite collect_bind.
  induction (sorted (glob_json folder)) as [|f files IH]; [done|].
  rewrite bind_cons, fmap_app, IH, visit_names, filter_cons.
  by case_decide.
Qed.

Lemma collect_sorted :
  StronglySorted String.le ((λ e : entry, e.1.1) <$> collect folder search).
Proof. rewrite collect_names. apply StronglySorted_filter, sorted_strongly. Qed.

End Sampling.

Lemma slice_from_sublist {X} start (l : list X) :
  slice_from start l `sublist_of` l.
Proof. unfold slice_from. apply sublist_drop. Qed.

Lemma recent_sublist count matches : recent count matches `sublist_of` matches.
Proof.
  unfold recent. destruct (_ >? _)%Z; [apply slice_from_sublist|done].
Qed.

(** For a positive [count] below the number of matches, [recent] is the
    last [count] matches. *)
Lemma recent_positive count (matches : list entry) :
  (0 < count < Z.of_nat (length matches))%Z →
  recent count matches =
    drop (length matches - Z.to_nat count) matches ∧
  length (recent count matches) = Z.to_nat count.
Proof.
  intros Hc. unfold recent, slice_from.
  destruct (Z.gtb_spec (Z.of_nat (length matches)) count) as [_|]; [|lia].
  destruct (Z.ltb_spec (- count) 0) as [_|]; [|lia].
  replace (Z.to_nat (Z.max 0 (- count + Z.of_nat (length matches))))
    with (length matches - Z.to_nat count) by lia.
  split; [done|]. rewrite length_drop. lia.
Qed.

(** For [count] at 0, and for a negative [count], the slice starts at
    the front: nothing, or the first [- count] matches, are left out. *)
Lemma recent_nonpositive count (matches : list entry) :
  (count <= 0)%Z → matches ≠ [] →
  recent count matches = drop (Z.to_nat (- count)) matches.
Proof.
  intros Hc Hne. unfold recent, slice_from.
  assert (0 < length matches) by (destruct matches; [done|simpl; lia]).
  destruct (Z.gtb_spec (Z.of_nat (length matches)) count) as [_|]; [|lia].
  destruct (Z.ltb_spec (- count) 0) as [|_]; [lia|].
  destruct (decide (- count <= Z.of_nat (length matches))%Z).
  - by rewrite Z.min_l.
  - rewrite Z.min_r by lia. rewrite Nat2Z.id.
    by rewrite !drop_ge by lia.
Qed.

(** C7 at [count = 0].  With two matching records and [count] at 0, the
    slice [matches[-0:]] is the whole of [matches]: the operation returns
    both records, not the last none of them. *)
Theorem sample_count_zero_returns_all :
  let folder : gmap string content :=
    {[ "0001.json" := Parsed {[ "from" := "ann@example.org"; "subject" := "Hi" ]};
       "0002.json" := Parsed {[ "from" := "bob@example.org" ]} ]} in
  collect folder None =
    [("0001.json", "ann@example.org", "Hi");
     ("0002.json", "bob@example.org", "no subject")] ∧
  (0 < Z.of_nat (length (collect folder None)))%Z ∧
  sample_emails (Some folder) 0 None = ["0001.json"; "0002.json"] ∧
  (∀ matches, recent 0 matches = matches).
Proof.
  intros folder. split_and!; [by vm_compute|by vm_compute|by vm_compute|].
  intros matches. unfold recent, slice_from.
  destruct (_ >? _)%Z; [|done].
  simpl. destruct (Z.of_nat (length matches)); done.
Qed.

(** ** Files that fail to load, in the sampling operation *)

Lemma visit_load_error folder search f e :
  folder !! f = Some (LoadError e) →
  visit folder search [] f =
  match search_term search with
  | Some _ => []
  | None => [(f, "error", e)]
  end.
Proof. unfold visit, json_load. by intros ->. Qed.

Lemma search_term_none search :
  search_term search = None ↔ search = None ∨ search = Some "".
Proof.
  destruct search as [s|]; simpl; [|by split; eauto].
  destruct (String.eqb_spec s "") as [->|Hne].
  - split; eauto.
  - split; [done|]. intros [|[=]]; done.
Qed.

(** C10, with the test as the code makes it.  A file that fails to load
    is reported as an entry with sender ["error"] and the exception
    message as subject when the search argument is absent or is the
    empty string; it is left out of the matches, and so of every result,
    when a non-empty search string is given. *)
Theorem load_failure_in_sample folder search f e :
  folder !! f = Some (LoadError e) →
  ends_with ".json" f = true →
  ((search = None ∨ search = Some "") →
   (f, "error", e) ∈ collect folder search ∧
   ∀ count, (Z.of_nat (length (collect folder search)) <= count)%Z →
     (f, "error", e) ∈ sample_entries (Some folder) count search ∧
     f ∈ sample_emails (Some folder) count search) ∧
  (∀ s, search = Some s → s ≠ "" →
   Forall (λ x : entry, x.1.1 ≠ f) (collect folder search) ∧
   ∀ count, f ∉ sample_emails (Some folder) count search).
Proof.
  intros Hf Hjson.
  pose proof (visit_load_error folder search f e Hf) as Hvisit.
  split.
  - intros Hnone%search_term_none. rewrite Hnone in Hvisit.
    assert ((f, "error", e) ∈ collect folder search) as Hin.
    { rewrite collect_bind. apply list_elem_of_bind. exists f.
      rewrite Hvisit. split; [by apply list_elem_of_singleton|].
      apply elem_of_sorted_glob. eauto. }
    split; [done|]. intros count Hcount.
    assert (sample_entries (Some folder) count search = collect folder search)
      as Hall.
    { unfold sample_entries, recent.
      destruct (Z.gtb_spec (Z.of_nat (length (collect folder search))) count);
        [lia|done]. }
    unfold sample_emails. rewrite Hall. split; [done|].
    apply list_elem_of_fmap. by exists (f, "error", e).
  - intros s -> Hs.
    assert (search_term (Some s) = Some s) as Hterm.
    { simpl. by destruct (String.eqb_spec s ""). }
    rewrite Hterm in Hvisit.
    assert (Forall (λ x : entry, x.1.1 ≠ f) (collect folder (Some s)))
      as Hall.
    { apply Forall_forall. intros x Hx Hname.
      rewrite collect_bind in Hx.
      apply list_elem_of_bind in Hx as (g & Hx & _).
      pose proof (visit_name _ _ _ _ Hx) as Hg.
      rewrite Hname in Hg. subst g. rewrite Hvisit in Hx.
      by apply elem_of_nil in Hx. }
    split; [done|]. intros count Hin.
    unfold sample_emails, sample_entries in Hin.
    apply list_elem_of_fmap in Hin as (x & Hname & Hx).
    pose proof (elem_of_sublist _ _ _ Hx (recent_sublist count _)) as Hx'.
    rewrite Forall_forall in Hall. by apply (Hall x Hx').
Qed.

Lemma load_failure_in_sample_witness :
  let folder : gmap string content :=
    {[ "0001.json" := LoadError "Expecting value: line 1 column 1 (char 0)";
       "0002.json" := Parsed {[ "from" := "ann@example.org" ]} ]} in
  ("0001.json", "error", "Expecting value: line 1 column 1 (char 0)")
    ∈ collect folder None ∧
  "0001.json" ∉ sample_emails (Some folder) 100 (Some "Ann").
Proof.
  intros folder. split.
  - apply (load_failure_in_sample folder None "0001.json"
             "Expecting value: line 1 column 1 (char 0)");
      [reflexivity|vm_compute; reflexivity|by left].
  - apply (load_failure_in_sample folder (Some "Ann") "0001.json"
             "Expecting value: line 1 column 1 (char 0)")
      with (s := "Ann"); [reflexivity|vm_compute; reflexivity|done|done].
Defined.

(** The sentence of C10 fails when the search string that is given is
    empty: the file that fails to load is then reported, not left out. *)
Lemma load_failure_in_sample_counterexample :
  let folder : gmap string content :=
    {[ "0001.json" := LoadError "Expecting value: line 1 column 1 (char 0)" ]} in
  sample_entries (Some folder) 100 (Some "") =
    [("0001.json", "error", "Expecting value: line 1 column 1 (char 0)")] ∧
  sample_emails (Some folder) 100 (Some "") = ["0001.json"] ∧
  ¬ ("0001.json" ∉ sample_emails (Some folder) 100 (Some "")).
Proof.
  intros folder. split_and!; [by vm_compute|by vm_compute|].
  intros H. apply H. apply list_elem_of_In. vm_compute. tauto.
Qed.

(** ** The domain key: letter case, shape and size *)

Lemma caseless_lt : caseless "<".
Proof. intros a. by destruct a as [[] [] [] [] [] [] [] []]. Qed.

Lemma caseless_gt : caseless ">".
Proof. intros a. by destruct a as [[] [] [] [] [] [] [] []]. Qed.

Lemma caseless_at : caseless "@".
Proof. intros a. by destruct a as [[] [] [] [] [] [] [] []]. Qed.

Lemma str_in_char_lower c s :
  caseless c → str_in (String c "") (lower s) = str_in (String c "") s.
Proof.
  intros Hc. induction s as [|a s IH]; [done|].
  cbn [lower]. by rewrite !str_in_char, Hc, IH.
Qed.

Lemma before_first_lower c s :
  caseless c → before_first c (lower s) = lower (before_first c s).
Proof.
  intros Hc. induction s as [|a s IH]; [done|].
  cbn [lower before_first]. rewrite Hc.
  destruct (Ascii.eqb a c); [done|]. cbn [lower]. by rewrite IH.
Qed.

Lemma after_first_lower c s :
  caseless c → after_first c (lower s) = lower (after_first c s).
Proof.
  intros Hc. induction s as [|a s IH]; [done|].
  cbn [lower after_first]. rewrite Hc.
  by destruct (Ascii.eqb a c).
Qed.

Lemma address_lower s : address (lower s) = lower (address s).
Proof.
  unfold address. rewrite (str_in_char_lower "<" s caseless_lt).
  destruct (str_in "<" s); [|done].
  by rewrite (after_first_lower _ _ caseless_lt),
    (before_first_lower _ _ caseless_lt),
    (before_first_lower _ _ caseless_gt).
Qed.

Lemma before_first_free c s : str_in (String c "") (before_first c s) = false.
Proof.
  induction s as [|a s IH]; [done|].
  cbn [before_first]. destruct (Ascii.eqb a c) eqn:Ha; [done|].
  by rewrite str_in_char, Ha, IH.
Qed.

Lemma slice_to_free c n s :
  str_in (String c "") s = false →
  str_in (String c "") (slice_to n s) = false.
Proof.
  unfold slice_to. revert n. induction s as [|a s IH]; intros n.
  - by destruct n.
  - rewrite str_in_char. intros [Ha Hs]%orb_false_iff.
    destruct n as [|n]; [done|]. cbn [substring].
    by rewrite str_in_char, Ha, IH.
Qed.

Lemma slice_to_lower n s : slice_to n (lower s) = lower (slice_to n s).
Proof.
  unfold slice_to. revert n. induction s as [|a s IH]; intros n.
  - by destruct n.
  - destruct n as [|n]; [done|]. cbn [lower substring]. by rewrite IH.
Qed.



(** X1.  The domain key does not depend on the letter case of the
    sender: two senders that are equal once lowercased get the same
    key. *)
Theorem get_domain_ignores_case s1 s2 :
  lower s1 = lower s2 → get_domain s1 = get_domain s2.
Proof.
  assert (∀ s, get_domain s = get_domain (lower s)) as Hlow.
  { intros s. rewrite !get_domain_unfold, address_lower.
    rewrite (str_in_char_lower "@" _ caseless_at).
    rewrite (after_first_lower _ _ caseless_at),
      (before_first_lower _ _ caseless_at).
    by rewrite !lower_idemp. }
  intros H. by rewrite (Hlow s1), (Hlow s2), H.
Qed.

Lemma get_domain_ignores_case_witness :
  get_domain "Jane Doe <JANE@Example.COM>" =
  get_domain "jane doe <jane@example.com>".
Proof.
  apply (get_domain_ignores_case "Jane Doe <JANE@Example.COM>"
           "jane doe <jane@example.com>").
  reflexivity.
Defined.

(** X2.  Whatever the sender, the domain key is in lower case and holds
    no ["@"]. *)
Theorem get_domain_key_shape s d :
  get_domain s = Some d → lower d = d ∧ str_in "@" d = false.
Proof.
  rewrite get_domain_unfold. intros [= <-].
  destruct (str_in "@" (address s)) eqn:Hat.
  - split; [apply lower_idemp|].
    rewrite (str_in_char_lower "@" _ caseless_at).
    apply before_first_free.
  - split.
    + by rewrite <- slice_to_lower, lower_idemp.
    + apply slice_to_free.
      by rewrite (str_in_char_lower "@" _ caseless_at).
Qed.

Lemma get_domain_key_shape_witness :
  lower "b" = "b" ∧ str_in "@" "b" = false.
Proof. apply (get_domain_key_shape "A@B@C" "b"). reflexivity. Defined.



(** ** The domain key of a well-formed sender *)

Lemma append_cons a s t : String a s ++ t = String a (s ++ t).
Proof. reflexivity. Qed.

Lemma append_nil t : "" ++ t = t.
Proof. reflexivity. Qed.

Lemma append_empty_r s : s ++ "" = s.
Proof.
  induction s as [|a s IH]; [done|]. by rewrite append_cons, IH.
Qed.

Lemma str_in_char_app c s t :
  str_in (String c "") (s ++ t) =
  str_in (String c "") s || str_in (String c "") t.
Proof.
  induction s as [|a s IH]; [done|].
  rewrite append_cons. by rewrite !str_in_char, IH, orb_assoc.
Qed.

Lemma before_first_app c s t :
  str_in (String c "") s = false →
  before_first c (s ++ t) = s ++ before_first c t.
Proof.
  induction s as [|a s IH]; [done|].
  rewrite str_in_char. intros [Ha Hs]%orb_false_iff.
  rewrite append_cons. cbn [before_first]. by rewrite Ha, IH.
Qed.

Lemma after_first_app c s t :
  str_in (String c "") s = false →
  after_first c (s ++ t) = after_first c t.
Proof.
  induction s as [|a s IH]; [done|].
  rewrite str_in_char. intros [Ha Hs]%orb_false_iff.
  rewrite append_cons. cbn [after_first]. by rewrite Ha, IH.
Qed.

Lemma before_first_absent c s :
  str_in (String c "") s = false → before_first c s = s.
Proof.
  induction s as [|a s IH]; [done|].
  rewrite str_in_char. intros [Ha Hs]%orb_false_iff.
  cbn [before_first]. by rewrite Ha, IH.
Qed.

Lemma plain_inv s :
  plain s = true →
  str_in "<" s = false ∧ str_in ">" s = false ∧ str_in "@" s = false.
Proof.
  unfold plain. by intros [[?%negb_true_iff ?%negb_true_iff]%andb_true_iff
                            ?%negb_true_iff]%andb_true_iff.
Qed.

Lemma domain_of_address local dom :
  plain local = true → plain dom = true →
  str_in "@" (local ++ "@" ++ dom) = true ∧
  before_first "@" (after_first "@" (local ++ "@" ++ dom)) = dom.
Proof.
  intros (_ & _ & Hl)%plain_inv (_ & _ & Hd)%plain_inv. split.
  - rewrite str_in_char_app, Hl, append_cons.
    by rewrite str_in_char.
  - rewrite (after_first_app "@" local _ Hl), append_cons, append_nil.
    cbn [after_first]. rewrite Ascii.eqb_refl.
    by apply before_first_absent.
Qed.

(** X4.  A sender of the form [Display Name <local@domain>], followed by
    anything, where the display name holds no ["<"] and neither part of
    the address holds ["<"], [">"] or ["@"], has the lowercased domain
    as its key. *)
Theorem get_domain_display_name_form name local dom rest :
  str_in "<" name = false →
  plain local = true → plain dom = true →
  get_domain (name ++ "<" ++ local ++ "@" ++ dom ++ ">" ++ rest) =
    Some (lower dom).
Proof.
  intros Hname Hlocal Hdom.
  pose proof (plain_inv _ Hlocal) as (Hl1 & Hl2 & _).
  pose proof (plain_inv _ Hdom) as (Hd1 & Hd2 & _).
  assert (address (name ++ "<" ++ local ++ "@" ++ dom ++ ">" ++ rest) =
          local ++ "@" ++ dom) as Haddr.
  { unfold address.
    rewrite str_in_char_app, Hname, append_cons, str_in_char.
    rewrite Ascii.eqb_refl. cbn [orb].
    rewrite (after_first_app "<" name _ Hname), append_cons, append_nil.
    cbn [after_first]. rewrite Ascii.eqb_refl.
    rewrite (before_first_app "<" local _ Hl1), append_cons, append_nil.
    cbn [before_first]. cbn [Ascii.eqb Bool.eqb andb].
    rewrite (before_first_app "<" dom _ Hd1), append_cons, append_nil.
    cbn [before_first]. cbn [Ascii.eqb Bool.eqb andb].
    rewrite (before_first_app ">" local _ Hl2).
    cbn [before_first]. cbn [Ascii.eqb Bool.eqb andb].
    rewrite (before_first_app ">" dom _ Hd2).
    cbn [before_first]. rewrite Ascii.eqb_refl.
    by rewrite append_nil, append_empty_r. }
  rewrite get_domain_unfold, Haddr.
  destruct (domain_of_address local dom Hlocal Hdom) as [-> ->]. done.
Qed.

Lemma get_domain_display_name_form_witness :
  get_domain ("Jane Doe " ++ "<" ++ "jane.doe+news" ++ "@" ++ "Mail.Example.COM"
              ++ ">" ++ " (via list)") =
  Some "mail.example.com".
Proof.
  apply (get_domain_display_name_form "Jane Doe " "jane.doe+news"
           "Mail.Example.COM" " (via list)"); reflexivity.
Defined.

(** X5.  A bare address [local@domain] whose parts hold no ["<"], [">"]
    or ["@"] has the lowercased domain as its key. *)
Theorem get_domain_bare_form local dom :
  plain local = true → plain dom = true →
  get_domain (local ++ "@" ++ dom) = Some (lower dom).
Proof.
  intros Hlocal Hdom.
  pose proof (plain_inv _ Hlocal) as (Hl1 & _ & _).
  pose proof (plain_inv _ Hdom) as (Hd1 & _ & _).
  assert (address (local ++ "@" ++ dom) = local ++ "@" ++ dom) as Haddr.
  { unfold address. rewrite str_in_char_app, Hl1, append_cons, append_nil.
    by rewrite str_in_char, Hd1. }
  rewrite get_domain_unfold, Haddr.
  destruct (domain_of_address local dom Hlocal Hdom) as [-> ->]. done.
Qed.

Lemma get_domain_bare_form_witness :
  get_domain ("No-Reply" ++ "@" ++ "Shop.Example.org") =
  Some "shop.example.org".
Proof.
  apply (get_domain_bare_form "No-Reply" "Shop.Example.org"); reflexivity.
Defined.

(** ** The matcher sets as sets *)

Lemma any_pattern_in_ext (ps qs : list string) s :
  (∀ p, p ∈ ps ↔ p ∈ qs) → any_pattern_in ps s = any_pattern_in qs s.
Proof.
  intros Hsame. apply eq_true_iff_eq.
  rewrite !any_pattern_in_true. by setoid_rewrite Hsame.
Qed.

Lemma step_ext (A A' R R' : list string) st f :
  (∀ email, should_archive A email = should_archive A' email) →
  (∀ email, needs_review R email = needs_review R' email) →
  step A R st f = step A' R' st f.
Proof.
  intros HA HR. unfold step.
  destruct (INBOX (disk st) !! f) as [[msg|email]|]; [done| |done].
  by rewrite HA, HR.
Qed.

Lemma run_loop_ext (A A' R R' : list string) files : ∀ st,
  (∀ email, should_archive A email = should_archive A' email) →
  (∀ email, needs_review R email = needs_review R' email) →
  run_loop A R files st = run_loop A' R' files st.
Proof.
  induction files as [|f files IH]; intros st HA HR; [done|].
  cbn [run_loop]. rewrite (step_ext A A' R R' st f HA HR).
  destruct (step A' R' st f) as [st'|]; [|done]. by apply IH.
Qed.

(** X6.  The matcher sets are used as sets: two archive lists with the
    same entries, and two review lists with the same entries, in any
    order and with any repetition, give the same answers on every email
    and the same run on every inbox. *)
Theorem matcher_order_is_irrelevant (A A' R R' : list string) :
  (∀ p, p ∈ A ↔ p ∈ A') → (∀ p, p ∈ R ↔ p ∈ R') →
  (∀ email, should_archive A email = should_archive A' email ∧
            needs_review R email = needs_review R' email ∧
            classify A R email = classify A' R' email) ∧
  ∀ d, main A R d = main A' R' d.
Proof.
  intros HA HR.
  assert (∀ email, should_archive A email = should_archive A' email) as Ha.
  { intros email. by apply any_pattern_in_ext. }
  assert (∀ email, needs_review R email = needs_review R' email) as Hr.
  { intros email. by apply any_pattern_in_ext. }
  split.
  - intros email. unfold classify. by rewrite Ha, Hr.
  - intros d. by apply run_loop_ext.
Qed.

Lemma matcher_order_is_irrelevant_witness :
  let d := Dirs {[ "0001.json" := Parsed {[ "from" := "pay@gusto.com" ]} ]}
             ∅ ∅ in
  main ["substack.com"; "gusto.com"] ["bank.example"] d =
  main ["gusto.com"; "substack.com"; "gusto.com"] ["bank.example"] d.
Proof.
  intros d.
  apply (matcher_order_is_irrelevant
           ["substack.com"; "gusto.com"]
           ["gusto.com"; "substack.com"; "gusto.com"]
           ["bank.example"] ["bank.example"]).
  - intros p. rewrite !elem_of_cons, !elem_of_nil. tauto.
  - done.
Defined.

(** ** Patterns that cannot match, and the pattern that always does *)

Lemma any_pattern_in_lowercase ps s :
  any_pattern_in ps (lower s) =
  any_pattern_in (filter (λ p, lower p = p) ps) (lower s).
Proof.
  induction ps as [|p ps IH]; [done|].
  rewrite (filter_cons (λ p, lower p = p)). cbn [any_pattern_in].
  destruct (str_in p (lower s)) eqn:Hp.
  - case_decide as Hl; [|by destruct Hl; apply (str_in_lower_fixed p s)].
    cbn [any_pattern_in]. by rewrite Hp.
  - case_decide; [|done]. cbn [any_pattern_in]. by rewrite Hp.
Qed.

(** X7.  An entry with a capital letter is inert: taking every such
    entry out of the two sets changes no answer of the matcher and no
    run. *)
Theorem capitalised_entries_are_inert (A R : list string) :
  (∀ email,
     should_archive A email =
       should_archive (filter (λ p, lower p = p) A) email ∧
     needs_review R email =
       needs_review (filter (λ p, lower p = p) R) email) ∧
  ∀ d, main A R d =
       main (filter (λ p, lower p = p) A) (filter (λ p, lower p = p) R) d.
Proof.
  assert (∀ ps email,
            any_pattern_in ps (lower (dict_get email "from" "")) =
            any_pattern_in (filter (λ p, lower p = p) ps)
              (lower (dict_get email "from" ""))) as H.
  { intros ps email. apply any_pattern_in_lowercase. }
  split.
  - intros email. split; apply H.
  - intros d. apply run_loop_ext; intros email; apply H.
Qed.

Lemma str_in_empty_text p : str_in p "" = true ↔ p = "".
Proof.
  destruct p as [|a p]; simpl; [done|]. split; done.
Qed.

Lemma str_in_empty_pattern s : str_in "" s = true.
Proof. by destruct s. Qed.

(** X8.  When neither set holds the empty pattern, an email without a
    ["from"] field, or with an empty one, is classified [Unknown]; the
    first is counted under the key ["unknown"], the second under the
    empty key. *)
Theorem missing_sender_is_unknown (A R : list string)
    (email : gmap string string) :
  "" ∉ A → "" ∉ R →
  dict_get email "from" "" = "" →
  classify A R email = Unknown ∧
  (email !! "from" = None →
   get_domain (dict_get email "from" "unknown") = Some "unknown") ∧
  (email !! "from" = Some "" →
   get_domain (dict_get email "from" "unknown") = Some "").
Proof.
  intros HA HR Hfrom.
  assert (∀ ps, "" ∉ ps → any_pattern_in ps "" = false) as Hnone.
  { intros ps Hps. destruct (any_pattern_in ps "") eqn:Hany; [|done].
    apply any_pattern_in_true in Hany as (p & Hp & Hin).
    apply str_in_empty_text in Hin. by subst. }
  split_and!.
  - apply classify_unknown.
    + unfold needs_review. rewrite Hfrom. by apply Hnone.
    + unfold should_archive. rewrite Hfrom. by apply Hnone.
  - unfold dict_get. by intros ->.
  - unfold dict_get. by intros ->.
Qed.

Lemma missing_sender_is_unknown_witness :
  classify ARCHIVE_SENDERS REVIEW_SENDERS {[ "subject" := "Hello" ]} = Unknown.
Proof.
  apply (missing_sender_is_unknown ARCHIVE_SENDERS REVIEW_SENDERS
           {[ "subject" := "Hello" ]}).
  - apply (bool_decide_unpack ("" ∉ ARCHIVE_SENDERS)). by vm_compute.
  - apply not_elem_of_nil.
  - reflexivity.
Defined.

(** X9.  The empty pattern matches every sender: a review set that holds
    it sends every email to review, and an archive set that holds it
    archives every email the review set lets through. *)
Theorem empty_pattern_matches_all (A R : list string)
    (email : gmap string string) :
  ("" ∈ R → classify A R email = Review) ∧
  ("" ∈ A → needs_review R email = false → classify A R email = Archive).
Proof.
  split.
  - intros HR. apply classify_review. unfold needs_review.
    apply any_pattern_in_true. exists "". split; [done|].
    apply str_in_empty_pattern.
  - intros HA Hr. apply classify_archive; [done|]. unfold should_archive.
    apply any_pattern_in_true. exists "". split; [done|].
    apply str_in_empty_pattern.
Qed.

(** X10.  A lowercase entry of the archive set archives every email
    whose sender holds it in any letter case, anywhere in the text, as
    long as the review set does not claim the email. *)
Theorem lowercase_pattern_archives (A R : list string) pattern
    (email : gmap string string) :
  pattern ∈ A → lower pattern = pattern →
  contains_ci pattern (dict_get email "from" "") = true →
  needs_review R email = false →
  classify A R email = Archive ∧
  ∀ st f, INBOX (disk st) !! f = Some (Parsed email) →
    ∃ st', step A R st f = Some st' ∧
      moved st' = (moved st ++ [(f, ToArchive)])%list ∧
      TO_ARCHIVE (disk st') !! f = Some (Parsed email) ∧
      INBOX (disk st') !! f = None ∧
      NEEDS_REVIEW (disk st') = NEEDS_REVIEW (disk st) ∧
      stats st' = Counters (archive (stats st) + 1) (review (stats st))
                    (unknown (stats st)) ∧
      sender_counts st' = sender_counts st.
Proof.
  unfold contains_ci. intros Hin -> Hsub Hr.
  assert (classify A R email = Archive) as Hc.
  { apply classify_archive; [done|]. unfold should_archive.
    apply any_pattern_in_true. eauto. }
  split; [done|]. intros st f Hf.
  eexists. split; [by apply step_archive|]. simpl.
  by rewrite lookup_insert_eq, lookup_delete_eq.
Qed.

Lemma lowercase_pattern_archives_witness :
  classify ARCHIVE_SENDERS REVIEW_SENDERS
    {[ "from" := "The Browser <Hello@Mail.SubStack.com>" ]} = Archive.
Proof.
  apply (lowercase_pattern_archives ARCHIVE_SENDERS REVIEW_SENDERS
           "substack.com"
           {[ "from" := "The Browser <Hello@Mail.SubStack.com>" ]}).
  - apply (bool_decide_unpack ("substack.com" ∈ ARCHIVE_SENDERS)).
    by vm_compute.
  - reflexivity.
  - by vm_compute.
  - reflexivity.
Defined.

(** ** The state of a run in closed form *)

Section Summary.
Variables (A R : list string) (d : dirs).

Lemma filter_snoc_true (P : string → Prop) `{∀ f, Decision (P f)}
    (l : list string) f :
  P f → length (filter P (l ++ [f])%list) = S (length (filter P l)).
Proof.
  intros HP. rewrite filter_app, length_app, filter_cons, filter_nil.
  rewrite decide_True by done. simpl. lia.
Qed.

Lemma filter_snoc_false (P : string → Prop) `{∀ f, Decision (P f)}
    (l : list string) f :
  ¬ P f → length (filter P (l ++ [f])%list) = length (filter P l).
Proof.
  intros HP. rewrite filter_app, length_app, filter_cons, filter_nil.
  rewrite decide_False by done. simpl. lia.
Qed.

Lemma omap_snoc {X Y} (g : X → option Y) (l : list X) x :
  omap g (l ++ [x])%list =
  (omap g l ++ match g x with Some y => [y] | None => [] end)%list.
Proof. rewrite omap_app. simpl. by destruct (g x). Qed.

Lemma summary_init : summary A R d [] (init d).
Proof.
  unfold summary, inbox_after. simpl. by split_and!.
Qed.

(** A folder the file [f] is not moved to keeps its closed form. *)
Lemma summary_folder_keep (folder source : gmap string content)
    processed f (o : outcome) :
  verdict A R (INBOX d) f ≠ Some o →
  (∀ n, folder !! n =
        if bool_decide (n ∈ processed ∧ verdict A R (INBOX d) n = Some o)
        then INBOX d !! n else source !! n) →
  ∀ n, folder !! n =
       if bool_decide (n ∈ (processed ++ [f])%list ∧
                       verdict A R (INBOX d) n = Some o)
       then INBOX d !! n else source !! n.
Proof.
  intros Hv Hold n. rewrite Hold.
  assert (bool_decide (n ∈ (processed ++ [f])%list ∧
                       verdict A R (INBOX d) n = Some o) =
          bool_decide (n ∈ processed ∧ verdict A R (INBOX d) n = Some o))
    as ->; [|done].
  apply bool_decide_ext. rewrite elem_of_app, list_elem_of_singleton.
  split; [|tauto]. intros [[Hn| ->] Hvn]; [done|by destruct Hv].
Qed.

(** The folder the file [f] is moved to gains it. *)
Lemma summary_folder_gain (folder source : gmap string content)
    processed f c (o : outcome) :
  verdict A R (INBOX d) f = Some o →
  INBOX d !! f = Some c →
  (∀ n, folder !! n =
        if bool_decide (n ∈ processed ∧ verdict A R (INBOX d) n = Some o)
        then INBOX d !! n else source !! n) →
  ∀ n, <[f := c]> folder !! n =
       if bool_decide (n ∈ (processed ++ [f])%list ∧
                       verdict A R (INBOX d) n = Some o)
       then INBOX d !! n else source !! n.
Proof.
  intros Hv Hf Hold n. destruct (decide (n = f)) as [->|Hne].
  - rewrite lookup_insert_eq, bool_decide_eq_true_2; [done|].
    split; [|done]. apply elem_of_app. right. by left.
  - rewrite lookup_insert_ne by done. rewrite Hold.
    assert (bool_decide (n ∈ (processed ++ [f])%list ∧
                         verdict A R (INBOX d) n = Some o) =
            bool_decide (n ∈ processed ∧ verdict A R (INBOX d) n = Some o))
      as ->; [|done].
    apply bool_decide_ext. rewrite elem_of_app, list_elem_of_singleton.
    tauto.
Qed.

Lemma summary_step processed st f st' :
  summary A R d processed st →
  f ∉ processed →
  step_case A R st f st' →
  summary A R d (processed ++ [f]) st'.
Proof.
  intros (Hin & Hta & Hnr & Ha & Hr & Hu & Hm & Hs) Hfresh Hcase.
  assert (INBOX (disk st) !! f = INBOX d !! f) as Hsee.
  { rewrite Hin. unfold inbox_after. by rewrite bool_decide_eq_false_2. }
  unfold summary. split.
  { intros n.
    rewrite (step_inbox_after A R d processed st f st' Hin Hcase n).
    unfold inbox_after.
    assert (bool_decide (n ∈ (processed ++ [f])%list) =
            bool_decide (n ∈ f :: processed)) as ->; [|done].
    apply bool_decide_ext.
    rewrite elem_of_app, !elem_of_cons, elem_of_nil. tauto. }
  rewrite omap_snoc.
  destruct Hcase as [Hf ->|email dst Hf Hmt Hc Hi Hta' Hnr' Hst Hsc Hmv
                    |email domain Hf Hmt Hdom Hdk Hst Hsc Hmv].
  - (* the file is skipped *)
    assert (verdict A R (INBOX d) f = None) as Hv.
    { unfold verdict. rewrite <- Hsee.
      by destruct Hf as [->|[msg ->]]. }
    assert (unknown_key A R (INBOX d) f = None) as Hk.
    { unfold unknown_key. rewrite <- Hsee.
      by destruct Hf as [->|[msg ->]]. }
    unfold move_of at 2. rewrite Hv, app_nil_r.
    rewrite !filter_snoc_false by (rewrite Hv; done).
    split_and!; try done.
    + apply summary_folder_keep; [by rewrite Hv|done].
    + apply summary_folder_keep; [by rewrite Hv|done].
    + intros k. rewrite filter_snoc_false by (rewrite Hk; done). apply Hs.
  - (* the file is moved *)
    rewrite Hsee in Hf.
    assert (unknown_key A R (INBOX d) f = None) as Hk.
    { unfold unknown_key. rewrite Hf, Hc. by destruct dst. }
    assert (∀ k, sender_counts st' !! k =
              counter (length (filter
                (λ g, unknown_key A R (INBOX d) g = Some k)
                (processed ++ [f])%list))) as Hkeys.
    { intros k. rewrite filter_snoc_false by (rewrite Hk; done).
      rewrite Hsc. apply Hs. }
    destruct dst.
    + assert (verdict A R (INBOX d) f = Some Archive) as Hv.
      { unfold verdict. by rewrite Hf, Hc. }
      unfold move_of at 2. rewrite Hv, Hst, Hmv, Hm, Hta', Hnr'. simpl.
      rewrite filter_snoc_true by done.
      rewrite !filter_snoc_false by (rewrite Hv; done).
      split_and!; try done.
      * by apply summary_folder_gain.
      * apply summary_folder_keep; [by rewrite Hv|done].
      * rewrite Ha. lia.
    + assert (verdict A R (INBOX d) f = Some Review) as Hv.
      { unfold verdict. by rewrite Hf, Hc. }
      unfold move_of at 2. rewrite Hv, Hst, Hmv, Hm, Hta', Hnr'. simpl.
      rewrite (filter_snoc_true
                 (λ g, verdict A R (INBOX d) g = Some Review)) by done.
      rewrite !filter_snoc_false by (rewrite Hv; done).
      split_and!; try done.
      * apply summary_folder_keep; [by rewrite Hv|done].
      * by apply summary_folder_gain.
      * rewrite Hr. lia.
  - (* the file is counted as unknown *)
    rewrite Hsee in Hf.
    assert (classify A R email = Unknown) as Hc.
    { simpl in Hmt. by destruct (classify A R email). }
    assert (verdict A R (INBOX d) f = Some Unknown) as Hv.
    { unfold verdict. by rewrite Hf, Hc. }
    assert (unknown_key A R (INBOX d) f = Some domain) as Hk.
    { unfold unknown_key. by rewrite Hf, Hc. }
    unfold move_of at 2. rewrite Hv, Hdk, Hst, Hmv, Hm, app_nil_r. simpl.
    rewrite (filter_snoc_true
               (λ g, verdict A R (INBOX d) g = Some Unknown)) by done.
    rewrite !filter_snoc_false by (rewrite Hv; done).
    split_and!; try done.
    + apply summary_folder_keep; [by rewrite Hv|done].
    + apply summary_folder_keep; [by rewrite Hv|done].
    + rewrite Hu. lia.
    + intros k. rewrite Hsc.
      destruct (decide (k = domain)) as [->|Hne].
      * rewrite lookup_insert_eq, Hs.
        rewrite filter_snoc_true by done.
        set (c := length _). destruct c; simpl; f_equal; lia.
      * rewrite lookup_insert_ne by done. rewrite Hs.
        rewrite filter_snoc_false by (rewrite Hk; congruence). done.
Qed.

Lemma run_loop_summary files : ∀ processed st st',
  summary A R d processed st →
  NoDup (processed ++ files)%list →
  run_loop A R files st = Some st' →
  summary A R d (processed ++ files) st'.
Proof.
  induction files as [|f files IH]; intros processed st st' Hsum Hnd; simpl.
  - intros [= <-]. by rewrite app_nil_r.
  - destruct (step_total A R st f) as (st1 & -> & Hcase). simpl.
    intros Hrun.
    replace (processed ++ f :: files)%list
      with ((processed ++ [f]) ++ files)%list
      in * by (by rewrite <- app_assoc).
    assert (f ∉ processed) as Hfresh.
    { apply NoDup_app in Hnd as (Hnd & _ & _).
      apply NoDup_app in Hnd as (_ & Hnd & _).
      intros Hin. apply (Hnd f Hin). by left. }
    apply (IH (processed ++ [f])%list st1 st'); [|done|done].
    by apply (summary_step processed st f st1 Hsum).
Qed.

Lemma NoDup_sorted_glob (folder : gmap string content) :
  NoDup (sorted (glob_json folder)).
Proof.
  unfold sorted, glob_json. rewrite merge_sort_Permutation.
  apply NoDup_filter, NoDup_elements.
Qed.

(** The state [main] ends in, component by component. *)
Lemma main_summary :
  ∃ st, main A R d = Some st ∧
        summary A R d (sorted (glob_json (INBOX d))) st.
Proof.
  destruct (run_loop_total A R (sorted (glob_json (INBOX d))) (init d))
    as [st Hst].
  exists st. split; [done|].
  apply (run_loop_summary _ [] (init d) st summary_init); [|done].
  apply NoDup_sorted_glob.
Qed.

End Summary.

(** ** Accounting *)

Section Accounting.
Variables (A R : list string) (d : dirs).

Lemma verdict_partition (files : list string) :
  length (filter (λ f, parses (INBOX d) f = true) files) =
  length (filter (λ f, verdict A R (INBOX d) f = Some Archive) files) +
  length (filter (λ f, verdict A R (INBOX d) f = Some Review) files) +
  length (filter (λ f, verdict A R (INBOX d) f = Some Unknown) files).
Proof.
  induction files as [|f files IH]; [done|].
  rewrite !filter_cons.
  assert ((parses (INBOX d) f = false ∧ verdict A R (INBOX d) f = None) ∨
          (parses (INBOX d) f = true ∧
           ∃ o, verdict A R (INBOX d) f = Some o)) as [[Hp Hv]|[Hp [o Hv]]].
  { unfold parses, verdict. destruct (INBOX d !! f) as [[msg|email]|]; eauto. }
  - rewrite Hp, Hv. repeat case_decide; try done.
  - rewrite Hp, Hv.
    destruct o; repeat case_decide; try done; simpl; rewrite IH; lia.
Qed.

Lemma moves_length (files : list string) :
  length (omap (move_of A R (INBOX d)) files) =
  length (filter (λ f, verdict A R (INBOX d) f = Some Archive) files) +
  length (filter (λ f, verdict A R (INBOX d) f = Some Review) files).
Proof.
  induction files as [|f files IH]; [done|].
  rewrite !filter_cons. cbn [omap list_omap]. unfold move_of at 1.
  fold (omap (move_of A R (INBOX d)) files).
  destruct (verdict A R (INBOX d) f) as [[]|]; simpl; rewrite IH; lia.
Qed.

Lemma moves_to (dst : dest) (files : list string) :
  length (filter (λ m : string * dest, m.2 = dst)
            (omap (move_of A R (INBOX d)) files)) =
  length (filter (λ f, verdict A R (INBOX d) f = Some (outcome_of dst)) files).
Proof.
  induction files as [|f files IH]; [done|].
  rewrite filter_cons. cbn [omap list_omap]. unfold move_of at 1.
  fold (omap (move_of A R (INBOX d)) files).
  destruct (verdict A R (INBOX d) f) as [[]|], dst; simpl;
    rewrite ?filter_cons; simpl; by rewrite IH.
Qed.

End Accounting.

(** X11.  The three counters account for every record: their sum is the
    number of [*.json] files of the inbox that parse, the number of
    moves is [archive + review], and [archive] and [review] count the
    moves to [to_archive] and to [needs_review]. *)
Theorem counters_account_for_records (A R : list string) (d : dirs) :
  ∃ st, main A R d = Some st ∧
    archive (stats st) + review (stats st) + unknown (stats st) =
      length (filter (λ f, parses (INBOX d) f = true)
                (sorted (glob_json (INBOX d)))) ∧
    length (moved st) = archive (stats st) + review (stats st) ∧
    length (filter (λ m, m.2 = ToArchive) (moved st)) = archive (stats st) ∧
    length (filter (λ m, m.2 = NeedsReview) (moved st)) = review (stats st).
Proof.
  destruct (main_summary A R d)
    as (st & Hmain & _ & _ & _ & Ha & Hr & Hu & Hm & _).
  exists st. split; [done|].
  rewrite Ha, Hr, Hu, Hm.
  rewrite (verdict_partition A R d), (moves_length A R d).
  by rewrite (moves_to A R d ToArchive), (moves_to A R d NeedsReview).
Qed.

(** ** The table of domain keys *)

Lemma table_total_incr (table : gmap string nat) k :
  table_total (<[k := default 0 (table !! k) + 1]> table) =
  table_total table + 1.
Proof.
  unfold table_total.
  destruct (table !! k) as [n|] eqn:Hk; simpl.
  - rewrite <- (insert_delete_eq table k (n + 1)).
    rewrite map_fold_insert_L.
    2:{ intros. lia. }
    2:{ apply lookup_delete_eq. }
    rewrite (map_fold_delete_L _ _ k n table).
    2:{ intros. lia. }
    2:{ done. }
    lia.
  - rewrite map_fold_insert_L.
    2:{ intros. lia. }
    2:{ done. }
    lia.
Qed.

(** X12.  The domain table sums to the [unknown] counter, and no key is
    stored with a count of 0. *)
Theorem table_sums_to_unknown (A R : list string) (d : dirs) :
  ∃ st, main A R d = Some st ∧
    table_total (sender_counts st) = unknown (stats st) ∧
    map_Forall (λ _ n, 0 < n) (sender_counts st).
Proof.
  destruct (run_loop_total A R (sorted (glob_json (INBOX d))) (init d))
    as [st Hst].
  exists st. split; [done|]. revert Hst.
  apply (run_loop_invariant A R
           (λ st, table_total (sender_counts st) = unknown (stats st) ∧
                  map_Forall (λ _ n, 0 < n) (sender_counts st))).
  - intros st0 f st' [Htot Hpos] Hcase.
    destruct Hcase as [_ ->|email dst _ _ _ _ _ _ Hs Hsc _
                      |email domain _ _ _ _ Hs Hsc _].
    + done.
    + rewrite Hsc, Hs. by destruct dst.
    + rewrite Hsc, Hs, table_total_incr. simpl. split; [lia|].
      apply map_Forall_insert_2; [lia|done].
  - split; [done|]. apply map_Forall_empty.
Qed.

(** X13.  The count stored for a domain key is the number of [*.json]
    files of the inbox that parse, match neither set and have that key;
    a key no such file has is not in the table. *)
Theorem table_counts_unknown_records (A R : list string) (d : dirs) :
  ∃ st, main A R d = Some st ∧
    ∀ k, sender_counts st !! k =
         counter (length (filter (λ f, unknown_key A R (INBOX d) f = Some k)
                            (sorted (glob_json (INBOX d))))).
Proof.
  destruct (main_summary A R d)
    as (st & Hmain & _ & _ & _ & _ & _ & _ & _ & Hs).
  by exists st.
Qed.

(** ** Where the files of the inbox end up *)

Section Fate.
Variables (A R : list string) (d : dirs).

Lemma move_of_inv g f dst :
  move_of A R (INBOX d) g = Some (f, dst) ↔
  g = f ∧ verdict A R (INBOX d) f = Some (outcome_of dst).
Proof.
  unfold move_of. split.
  - destruct (verdict A R (INBOX d) g) as [[]|] eqn:Hv; try done;
      intros [= <- <-]; by rewrite Hv.
  - intros [-> ->]. by destruct dst.
Qed.

Lemma elem_of_moves (files : list string) f dst :
  (f, dst) ∈ omap (move_of A R (INBOX d)) files ↔
  f ∈ files ∧ verdict A R (INBOX d) f = Some (outcome_of dst).
Proof.
  rewrite list_elem_of_omap. split.
  - intros (g & Hg & [-> Hv]%move_of_inv). done.
  - intros [Hf Hv]. exists f. split; [done|]. by apply move_of_inv.
Qed.

Lemma moves_names (files : list string) :
  (omap (move_of A R (INBOX d)) files).*1 =
  filter (λ f, is_Some (move_of A R (INBOX d) f)) files.
Proof.
  induction files as [|f files IH]; [done|].
  rewrite filter_cons. cbn [omap list_omap].
  fold (omap (move_of A R (INBOX d)) files).
  destruct (move_of A R (INBOX d) f) as [[g dst]|] eqn:Hmv.
  - apply move_of_inv in Hmv as [-> _].
    rewrite decide_True by eauto. cbn [fmap list_fmap fst]. by f_equal.
  - rewrite decide_False by (by intros [? ?]). done.
Qed.

Lemma verdict_matched f c o :
  INBOX d !! f = Some c →
  verdict A R (INBOX d) f = Some o →
  matched A R c = (if decide (o = Unknown) then false else true).
Proof.
  unfold verdict. intros ->. destruct c as [msg|email]; [done|].
  intros [= <-]. simpl. by destruct (classify A R email).
Qed.

Lemma verdict_none_matched f c :
  INBOX d !! f = Some c →
  verdict A R (INBOX d) f = None →
  matched A R c = false.
Proof.
  unfold verdict. intros ->. by destruct c.
Qed.

End Fate.

(** X14.  No file of the inbox is lost or altered by a run: each one is
    either still in the inbox with its content and named by no move, or
    gone from the inbox, named by a move and present with its content in
    the folder of that move. *)
Theorem no_inbox_file_is_lost (A R : list string) (d : dirs) :
  ∃ st, main A R d = Some st ∧
    ∀ f c, INBOX d !! f = Some c →
      (INBOX (disk st) !! f = Some c ∧ ∀ dst, (f, dst) ∉ moved st) ∨
      (∃ dst, INBOX (disk st) !! f = None ∧ (f, dst) ∈ moved st ∧
              folder_of dst (disk st) !! f = Some c).
Proof.
  destruct (main_summary A R d)
    as (st & Hmain & Hin & Hta & Hnr & _ & _ & _ & Hm & _).
  exists st. split; [done|]. intros f c Hf.
  rewrite Hm, Hin. unfold inbox_after.
  destruct (verdict A R (INBOX d) f) as [o|] eqn:Hv.
  - pose proof (verdict_matched A R d f c o Hf Hv) as Hmt.
    case_bool_decide as Hlist.
    + rewrite Hf. simpl. unfold residue. rewrite Hmt.
      destruct o.
      * right. exists NeedsReview. simpl. split_and!; [done| |].
        -- by apply elem_of_moves.
        -- rewrite Hnr, bool_decide_eq_true_2 by done. done.
      * right. exists ToArchive. simpl. split_and!; [done| |].
        -- by apply elem_of_moves.
        -- rewrite Hta, bool_decide_eq_true_2 by done. done.
      * left. simpl. split; [done|].
        intros dst [_ Hdst]%elem_of_moves. rewrite Hv in Hdst.
        by destruct dst.
    + left. split; [done|]. by intros dst [? _]%elem_of_moves.
  - left. split.
    + case_bool_decide; [|done]. rewrite Hf. simpl. unfold residue.
      by rewrite (verdict_none_matched A R d f c Hf Hv).
    + intros dst [_ Hdst]%elem_of_moves. by rewrite Hv in Hdst.
Qed.

(** X15.  A destination folder changes only at the names moved into it:
    a moved file replaces whatever the folder held under its name, and
    every other name of the folder keeps its content. *)
Theorem destination_folders_change_at_moves (A R : list string) (d : dirs) :
  ∃ st, main A R d = Some st ∧
    ∀ f dst,
      ((f, dst) ∈ moved st →
       folder_of dst (disk st) !! f = INBOX d !! f) ∧
      ((f, dst) ∉ moved st →
       folder_of dst (disk st) !! f = folder_of dst d !! f).
Proof.
  destruct (main_summary A R d)
    as (st & Hmain & _ & Hta & Hnr & _ & _ & _ & Hm & _).
  exists st. split; [done|]. intros f dst. rewrite Hm, elem_of_moves.
  destruct dst; simpl; rewrite ?Hta, ?Hnr; split; intros H;
    by rewrite ?bool_decide_eq_true_2, ?bool_decide_eq_false_2 by done.
Qed.

(** X16.  The moves of a run: a file is moved exactly when its name
    ends in [.json], it parses and its sender matches a set, and it goes
    to the folder of the set that wins; the moves are made in increasing
    order of file name, each file at most once. *)
Theorem moves_of_a_run (A R : list string) (d : dirs) :
  ∃ st, main A R d = Some st ∧
    (∀ f dst, (f, dst) ∈ moved st ↔
       ends_with ".json" f = true ∧
       verdict A R (INBOX d) f = Some (outcome_of dst)) ∧
    StronglySorted String.le (moved st).*1 ∧
    NoDup (moved st).*1.
Proof.
  destruct (main_summary A R d)
    as (st & Hmain & _ & _ & _ & _ & _ & _ & Hm & _).
  exists st. split; [done|]. rewrite Hm, moves_names. split_and!.
  - intros f dst. rewrite elem_of_moves, elem_of_sorted_glob.
    split; [tauto|]. intros [Hj Hv]. split_and!; [done| |done].
    unfold verdict in Hv. by destruct (INBOX d !! f).
  - apply StronglySorted_filter, sorted_strongly.
  - apply NoDup_filter, NoDup_sorted_glob.
Qed.

(** ** Files the run does not look at *)

Lemma filter_all {X} (P : X → Prop) `{∀ x, Decision (P x)} (l : list X) :
  Forall P l → filter P l = l.
Proof.
  induction 1 as [|x l Hx _ IH]; [done|].
  by rewrite filter_cons, decide_True, IH.
Qed.

Lemma run_loop_forget_other (A R : list string) other files : ∀ st st',
  other ∉ files →
  run_loop A R files st = Some st' →
  run_loop A R files (forget other st) = Some (forget other st') ∧
  INBOX (disk st') !! other = INBOX (disk st) !! other.
Proof.
  induction files as [|f files IH]; intros st st' Hout; simpl.
  - by intros [= <-].
  - apply not_elem_of_cons in Hout as [Hne Hout].
    destruct (step A R st f) as [st1|] eqn:Hstep; simpl; [|done].
    destruct (step_forget A R other st f st1) as [-> Hkeep]; [done..|].
    simpl. intros Hrun.
    destruct (IH st1 st' Hout Hrun) as [-> Hkeep']. split; [done|].
    congruence.
Qed.

(** X17.  A file whose name does not end in [.json] is invisible to the
    run: it stays in the inbox as it is, and the run gives the
    statistics, the table, the moves and the folders it gives without
    that file. *)
Theorem other_files_are_ignored (A R : list string) (d : dirs) f :
  ends_with ".json" f = false →
  ∃ st, main A R d = Some st ∧
    INBOX (disk st) !! f = INBOX d !! f ∧
    main A R (without f d) = Some (forget f st).
Proof.
  intros Hj.
  destruct (run_loop_total A R (sorted (glob_json (INBOX d))) (init d))
    as [st Hst].
  exists st. split; [done|].
  assert (f ∉ sorted (glob_json (INBOX d))) as Hout.
  { intros [Hj' _]%elem_of_sorted_glob. congruence. }
  destruct (run_loop_forget_other A R f _ (init d) st Hout Hst)
    as [Hrun Hkeep].
  split; [done|]. unfold main. simpl. rewrite sorted_glob_delete.
  rewrite filter_all; [done|].
  apply Forall_forall. by intros g Hg ->.
Qed.

Lemma other_files_are_ignored_witness :
  let d := Dirs {[ "notes.txt" := Parsed {[ "from" := "x@substack.com" ]};
                   "0001.json" := Parsed {[ "from" := "y@substack.com" ]} ]}
             ∅ ∅ in
  ∃ st, main ARCHIVE_SENDERS REVIEW_SENDERS d = Some st ∧
    INBOX (disk st) !! "notes.txt" = INBOX d !! "notes.txt" ∧
    main ARCHIVE_SENDERS REVIEW_SENDERS (without "notes.txt" d) =
      Some (forget "notes.txt" st).
Proof.
  intros d.
  apply (other_files_are_ignored ARCHIVE_SENDERS REVIEW_SENDERS d "notes.txt").
  reflexivity.
Defined.

(** ** Resuming an interrupted run *)

Lemma filter_ext_in {X} (P Q : X → Prop) `{∀ x, Decision (P x)}
    `{∀ x, Decision (Q x)} (l : list X) :
  (∀ x, x ∈ l → (P x ↔ Q x)) → filter P l = filter Q l.
Proof.
  induction l as [|x l IH]; intros Hext; [done|].
  rewrite !filter_cons, IH.
  - apply decide_ext. apply Hext. by left.
  - intros y Hy. apply Hext. by right.
Qed.

Lemma filter_never {X} (l : list X) : filter (λ _, False) l = [].
Proof.
  induction l as [|x l IH]; [done|].
  rewrite filter_cons. by case_decide.
Qed.

Lemma omap_ext_in {X Y} (g h : X → option Y) (l : list X) :
  (∀ x, x ∈ l → g x = h x) → omap g l = omap h l.
Proof.
  induction l as [|x l IH]; intros Hext; [done|].
  cbn [omap list_omap]. rewrite (Hext x) by left.
  fold (omap g l). fold (omap h l). rewrite IH; [done|].
  intros y Hy. apply Hext. by right.
Qed.

Lemma omap_none {X Y} (g : X → option Y) (l : list X) :
  (∀ x, x ∈ l → g x = None) → omap g l = [].
Proof.
  induction l as [|x l IH]; intros Hnone; [done|].
  cbn [omap list_omap]. rewrite (Hnone x) by left.
  apply IH. intros y Hy. apply Hnone. by right.
Qed.

Lemma omap_filter_keep {X Y} (g : X → option Y) (P : X → Prop)
    `{∀ x, Decision (P x)} (l : list X) :
  (∀ x, is_Some (g x) → P x) → omap g (filter P l) = omap g l.
Proof.
  intros Hkeep. induction l as [|x l IH]; [done|].
  rewrite filter_cons. cbn [omap list_omap]. fold (omap g l).
  case_decide as HP.
  - cbn [omap list_omap]. fold (omap g (filter P l)). by rewrite IH.
  - rewrite IH. destruct (g x) eqn:Hg; [|done].
    destruct HP. apply Hkeep. by rewrite Hg.
Qed.

(** The listing of a folder that holds part of the files of another. *)
Lemma sorted_glob_subfolder (part whole : gmap string content) :
  (∀ f, is_Some (part !! f) → is_Some (whole !! f)) →
  sorted (glob_json part) =
  filter (λ f, is_Some (part !! f)) (sorted (glob_json whole)).
Proof.
  intros Hsub. apply (StronglySorted_unique String.le).
  - apply sorted_strongly.
  - apply StronglySorted_filter, sorted_strongly.
  - apply NoDup_Permutation.
    + apply NoDup_sorted_glob.
    + apply NoDup_filter, NoDup_sorted_glob.
    + intros f. rewrite list_elem_of_filter, !elem_of_sorted_glob.
      split; [|tauto]. intros [Hj Hf]. auto.
Qed.

Section Resume.
Variables (A R : list string) (d : dirs) (l1 l2 : list string) (st1 : state).
Hypothesis Hlist : sorted (glob_json (INBOX d)) = (l1 ++ l2)%list.
Hypothesis Hst1 : summary A R d l1 st1.

Lemma resume_listed f :
  f ∈ (l1 ++ l2)%list ↔ ends_with ".json" f = true ∧ is_Some (INBOX d !! f).
Proof. rewrite <- Hlist. apply elem_of_sorted_glob. Qed.

Lemma resume_seen f :
  f ∈ l1 → INBOX (disk st1) !! f = INBOX d !! f ≫= residue A R.
Proof.
  intros Hf. destruct Hst1 as (Hin & _). rewrite Hin.
  unfold inbox_after. by rewrite bool_decide_eq_true_2.
Qed.

Lemma resume_unseen f : f ∉ l1 → INBOX (disk st1) !! f = INBOX d !! f.
Proof.
  intros Hf. destruct Hst1 as (Hin & _). rewrite Hin.
  unfold inbox_after. by rewrite bool_decide_eq_false_2.
Qed.

Lemma resume_subfolder f :
  is_Some (INBOX (disk st1) !! f) → is_Some (INBOX d !! f).
Proof.
  destruct (decide (f ∈ l1)) as [Hf|Hf].
  - rewrite (resume_seen f Hf). destruct (INBOX d !! f); [eauto|].
    by intros [? ?].
  - by rewrite (resume_unseen f Hf).
Qed.

Lemma resume_verdict_seen f :
  f ∈ l1 →
  verdict A R (INBOX (disk st1)) f =
  match verdict A R (INBOX d) f with
  | Some Unknown => Some Unknown
  | _ => None
  end.
Proof.
  intros Hf. unfold verdict. rewrite (resume_seen f Hf).
  destruct (INBOX d !! f) as [[msg|email]|]; [done| |done].
  simpl. unfold residue. simpl.
  by destruct (classify A R email) eqn:Hc; simpl; rewrite ?Hc.
Qed.

Lemma resume_key_seen f :
  f ∈ l1 →
  unknown_key A R (INBOX (disk st1)) f = unknown_key A R (INBOX d) f.
Proof.
  intros Hf. unfold unknown_key. rewrite (resume_seen f Hf).
  destruct (INBOX d !! f) as [[msg|email]|]; [done| |done].
  simpl. unfold residue. simpl.
  by destruct (classify A R email) eqn:Hc; simpl; rewrite ?Hc.
Qed.

Lemma resume_verdict_unseen f :
  f ∉ l1 →
  verdict A R (INBOX (disk st1)) f = verdict A R (INBOX d) f.
Proof. intros Hf. unfold verdict. by rewrite (resume_unseen f Hf). Qed.

Lemma resume_key_unseen f :
  f ∉ l1 →
  unknown_key A R (INBOX (disk st1)) f = unknown_key A R (INBOX d) f.
Proof. intros Hf. unfold unknown_key. by rewrite (resume_unseen f Hf). Qed.

Lemma resume_disjoint f : f ∈ l2 → f ∉ l1.
Proof.
  intros H2 H1.
  pose proof (NoDup_sorted_glob (INBOX d)) as Hnd. rewrite Hlist in Hnd.
  apply NoDup_app in Hnd as (_ & Hnd & _). by apply (Hnd f).
Qed.

Lemma resume_listing :
  sorted (glob_json (INBOX (disk st1))) =
  filter (λ f, is_Some (INBOX (disk st1) !! f)) (l1 ++ l2)%list.
Proof.
  rewrite <- Hlist. apply sorted_glob_subfolder, resume_subfolder.
Qed.

Lemma verdict_present (inbox : gmap string content) f o :
  verdict A R inbox f = Some o → is_Some (inbox !! f).
Proof. unfold verdict. destruct (inbox !! f); [eauto|done]. Qed.

Lemma unknown_key_present (inbox : gmap string content) f k :
  unknown_key A R inbox f = Some k → is_Some (inbox !! f).
Proof. unfold unknown_key. destruct (inbox !! f); [eauto|done]. Qed.

(** The second run moves the files of [l2] that match, and only them. *)
Lemma resume_moves :
  omap (move_of A R (INBOX (disk st1)))
    (sorted (glob_json (INBOX (disk st1)))) =
  omap (move_of A R (INBOX d)) l2.
Proof.
  rewrite resume_listing, omap_filter_keep.
  2:{ intros f [m Hm]. unfold move_of in Hm.
      destruct (verdict A R (INBOX (disk st1)) f) eqn:Hv; [|done].
      by eapply verdict_present. }
  rewrite omap_app, omap_none.
  2:{ intros f Hf. unfold move_of. rewrite (resume_verdict_seen f Hf).
      by destruct (verdict A R (INBOX d) f) as [[]|]. }
  apply omap_ext_in. intros f Hf. unfold move_of.
  by rewrite (resume_verdict_unseen f (resume_disjoint f Hf)).
Qed.

(** The second run archives, or sends to review, as many files as [l2]
    holds for that. *)
Lemma resume_moved_count (o : outcome) :
  o ≠ Unknown →
  length (filter (λ f, verdict A R (INBOX (disk st1)) f = Some o)
            (sorted (glob_json (INBOX (disk st1))))) =
  length (filter (λ f, verdict A R (INBOX d) f = Some o) l2).
Proof.
  intros Ho. rewrite resume_listing.
  rewrite list_filter_filter_l by (intros f; apply verdict_present).
  rewrite filter_app, length_app.
  rewrite (filter_ext_in _ (λ _, False) l1).
  2:{ intros f Hf. rewrite (resume_verdict_seen f Hf).
      destruct (verdict A R (INBOX d) f) as [[]|]; naive_solver. }
  rewrite (filter_ext_in _ (λ f, verdict A R (INBOX d) f = Some o) l2).
  2:{ intros f Hf.
      by rewrite (resume_verdict_unseen f (resume_disjoint f Hf)). }
  by rewrite filter_never.
Qed.

(** It counts as unknown every file the whole run counts as unknown. *)
Lemma resume_unknown_count :
  length (filter (λ f, verdict A R (INBOX (disk st1)) f = Some Unknown)
            (sorted (glob_json (INBOX (disk st1))))) =
  length (filter (λ f, verdict A R (INBOX d) f = Some Unknown) (l1 ++ l2)%list).
Proof.
  rewrite resume_listing.
  rewrite list_filter_filter_l by (intros f; apply verdict_present).
  f_equal. apply filter_ext_in. intros f Hf.
  destruct (decide (f ∈ l1)) as [H1|H1].
  - rewrite (resume_verdict_seen f H1).
    destruct (verdict A R (INBOX d) f) as [[]|]; naive_solver.
  - by rewrite (resume_verdict_unseen f H1).
Qed.

Lemma resume_key_count k :
  length (filter (λ f, unknown_key A R (INBOX (disk st1)) f = Some k)
            (sorted (glob_json (INBOX (disk st1))))) =
  length (filter (λ f, unknown_key A R (INBOX d) f = Some k) (l1 ++ l2)%list).
Proof.
  rewrite resume_listing.
  rewrite list_filter_filter_l by (intros f; apply unknown_key_present).
  f_equal. apply filter_ext_in. intros f Hf.
  destruct (decide (f ∈ l1)) as [H1|H1].
  - by rewrite (resume_key_seen f H1).
  - by rewrite (resume_key_unseen f H1).
Qed.

(** The folders after the second run are the folders after a whole
    run. *)
Lemma resume_inbox f :
  inbox_after A R (disk st1) (sorted (glob_json (INBOX (disk st1)))) f =
  inbox_after A R d (l1 ++ l2)%list f.
Proof.
  unfold inbox_after.
  destruct (decide (f ∈ l1)) as [H1|H1].
  - rewrite (bool_decide_eq_true_2 (f ∈ (l1 ++ l2)%list))
      by (apply elem_of_app; by left).
    rewrite (resume_seen f H1).
    destruct (INBOX d !! f) as [c|]; simpl; [|by case_bool_decide].
    unfold residue. destruct (matched A R c) eqn:Hc;
      case_bool_decide; simpl; by rewrite ?Hc.
  - rewrite (resume_unseen f H1).
    assert (bool_decide (f ∈ sorted (glob_json (INBOX (disk st1)))) =
            bool_decide (f ∈ (l1 ++ l2)%list)) as ->; [|done].
    apply bool_decide_ext.
    by rewrite elem_of_sorted_glob, resume_listed, (resume_unseen f H1).
Qed.

Lemma resume_folder (o : outcome) (folder1 folder : gmap string content) f :
  o ≠ Unknown →
  folder1 !! f =
    (if bool_decide (f ∈ l1 ∧ verdict A R (INBOX d) f = Some o)
     then INBOX d !! f else folder !! f) →
  (if bool_decide (f ∈ sorted (glob_json (INBOX (disk st1))) ∧
                   verdict A R (INBOX (disk st1)) f = Some o)
   then INBOX (disk st1) !! f else folder1 !! f) =
  (if bool_decide (f ∈ (l1 ++ l2)%list ∧ verdict A R (INBOX d) f = Some o)
   then INBOX d !! f else folder !! f).
Proof.
  intros Ho ->.
  destruct (decide (f ∈ l1)) as [H1|H1].
  - assert (f ∈ (l1 ++ l2)%list) as H12 by (apply elem_of_app; by left).
    rewrite (bool_decide_eq_false_2 (_ ∧ verdict A R (INBOX (disk st1)) f = _)).
    2:{ rewrite (resume_verdict_seen f H1).
        destruct (verdict A R (INBOX d) f) as [[]|];
          intros [_ ?]; congruence. }
    apply (f_equal (λ b : bool, if b then INBOX d !! f else folder !! f)).
    apply bool_decide_ext. tauto.
  - rewrite (bool_decide_eq_false_2 (f ∈ l1 ∧ _)) by tauto.
    rewrite (resume_verdict_unseen f H1), (resume_unseen f H1).
    apply (f_equal (λ b : bool, if b then INBOX d !! f else folder !! f)).
    apply bool_decide_ext.
    by rewrite elem_of_sorted_glob, resume_listed, (resume_unseen f H1).
Qed.

End Resume.

Lemma dirs_eq (a b : dirs) :
  INBOX a = INBOX b → TO_ARCHIVE a = TO_ARCHIVE b →
  NEEDS_REVIEW a = NEEDS_REVIEW b → a = b.
Proof. destruct a, b. simpl. by intros -> -> ->. Qed.

(** X18.  A run that is interrupted after some of the files, in listing
    order, can be run again from the start: the second run ends with the
    folders, the [unknown] counter and the domain table of an
    uninterrupted run, and the moves and the [archive] and [review]
    counts of the two runs add up to those of the uninterrupted run. *)
Theorem interrupted_run_resumes (A R : list string) (d : dirs)
    (l1 l2 : list string) :
  sorted (glob_json (INBOX d)) = (l1 ++ l2)%list →
  ∃ st1 st2 st,
    run_loop A R l1 (init d) = Some st1 ∧
    main A R (disk st1) = Some st2 ∧
    main A R d = Some st ∧
    disk st2 = disk st ∧
    (moved st1 ++ moved st2)%list = moved st ∧
    archive (stats st1) + archive (stats st2) = archive (stats st) ∧
    review (stats st1) + review (stats st2) = review (stats st) ∧
    unknown (stats st2) = unknown (stats st) ∧
    sender_counts st2 = sender_counts st.
Proof.
  intros Hlist.
  destruct (run_loop_total A R l1 (init d)) as [st1 Hrun1].
  assert (summary A R d l1 st1) as Hsum1.
  { apply (run_loop_summary A R d l1 [] (init d) st1 (summary_init A R d));
      [|done].
    pose proof (NoDup_sorted_glob (INBOX d)) as Hnd. rewrite Hlist in Hnd.
    by apply NoDup_app in Hnd as (Hnd & _ & _). }
  destruct (main_summary A R (disk st1)) as (st2 & Hrun2 & Hsum2).
  destruct (main_summary A R d) as (st & Hrun & Hsum).
  rewrite Hlist in Hsum.
  exists st1, st2, st. split_and!; try done.
  - pose proof Hsum1 as (_ & Hta1 & Hnr1 & _).
    destruct Hsum2 as (Hin2 & Hta2 & Hnr2 & _).
    destruct Hsum as (Hin & Hta & Hnr & _).
    apply dirs_eq; apply map_eq; intros f.
    + rewrite Hin2, Hin. by apply (resume_inbox A R d l1 l2 st1 Hlist).
    + rewrite Hta2, Hta.
      by apply (resume_folder A R d l1 l2 st1 Hlist Hsum1 Archive).
    + rewrite Hnr2, Hnr.
      by apply (resume_folder A R d l1 l2 st1 Hlist Hsum1 Review).
  - pose proof Hsum1 as (_ & _ & _ & _ & _ & _ & Hm1 & _).
    destruct Hsum2 as (_ & _ & _ & _ & _ & _ & Hm2 & _).
    destruct Hsum as (_ & _ & _ & _ & _ & _ & Hm & _).
    rewrite Hm1, Hm2, Hm, omap_app. f_equal.
    by apply (resume_moves A R d l1 l2 st1 Hlist).
  - pose proof Hsum1 as (_ & _ & _ & Ha1 & _).
    destruct Hsum2 as (_ & _ & _ & Ha2 & _).
    destruct Hsum as (_ & _ & _ & Ha & _).
    rewrite Ha1, Ha2, Ha, filter_app, length_app. f_equal.
    by apply (resume_moved_count A R d l1 l2 st1 Hlist).
  - pose proof Hsum1 as (_ & _ & _ & _ & Hr1 & _).
    destruct Hsum2 as (_ & _ & _ & _ & Hr2 & _).
    destruct Hsum as (_ & _ & _ & _ & Hr & _).
    rewrite Hr1, Hr2, Hr, filter_app, length_app. f_equal.
    by apply (resume_moved_count A R d l1 l2 st1 Hlist).
  - destruct Hsum2 as (_ & _ & _ & _ & _ & Hu2 & _).
    destruct Hsum as (_ & _ & _ & _ & _ & Hu & _).
    rewrite Hu2, Hu.
    by apply (resume_unknown_count A R d l1 l2 st1 Hlist).
  - destruct Hsum2 as (_ & _ & _ & _ & _ & _ & _ & Hs2).
    destruct Hsum as (_ & _ & _ & _ & _ & _ & _ & Hs).
    apply map_eq. intros k. rewrite Hs2, Hs. f_equal.
    by apply (resume_key_count A R d l1 l2 st1 Hlist).
Qed.

Lemma interrupted_run_resumes_witness :
  let d :=
    Dirs {[ "0001.json" := Parsed {[ "from" := "news@substack.com" ]};
            "0002.json" := Parsed {[ "from" := "ann@example.org" ]};
            "0003.json" := Parsed {[ "from" := "Gusto <no-reply@gusto.com>" ]} ]}
         ∅ ∅ in
  ∃ st1 st2 st,
    run_loop ARCHIVE_SENDERS REVIEW_SENDERS ["0001.json"; "0002.json"] (init d)
      = Some st1 ∧
    main ARCHIVE_SENDERS REVIEW_SENDERS (disk st1) = Some st2 ∧
    main ARCHIVE_SENDERS REVIEW_SENDERS d = Some st ∧
    disk st2 = disk st ∧
    (moved st1 ++ moved st2)%list = moved st ∧
    archive (stats st1) + archive (stats st2) = archive (stats st) ∧
    review (stats st1) + review (stats st2) = review (stats st) ∧
    unknown (stats st2) = unknown (stats st) ∧
    sender_counts st2 = sender_counts st.
Proof.
  intros d.
  apply (interrupted_run_resumes ARCHIVE_SENDERS REVIEW_SENDERS d
           ["0001.json"; "0002.json"] ["0003.json"]).
  by vm_compute.
Defined.

(** ** The report of unknown senders *)

Lemma incr_keys k (items : list (string * nat)) :
  (incr k items).*1 =
  if bool_decide (k ∈ items.*1) then items.*1 else (items.*1 ++ [k])%list.
Proof.
  induction items as [|[k' n] items IH]; [done|].
  cbn [incr]. destruct (String.eqb_spec k' k) as [->|Hne].
  - cbn [fmap list_fmap fst]. rewrite bool_decide_eq_true_2; [done|by left].
  - cbn [fmap list_fmap fst]. fold (fmap (M:=list) (@fst string nat)).
    rewrite IH.
    assert (bool_decide (k ∈ k' :: items.*1) = bool_decide (k ∈ items.*1))
      as ->; [|by case_bool_decide].
    apply bool_decide_ext. rewrite elem_of_cons.
    split; [by intros [->|?]|by right].
Qed.

Lemma incr_NoDup k (items : list (string * nat)) :
  NoDup items.*1 → NoDup (incr k items).*1.
Proof.
  intros Hnd. rewrite incr_keys. case_bool_decide as Hk; [done|].
  apply NoDup_app. split_and!; [done| |apply NoDup_singleton].
  intros x Hx ->%list_elem_of_singleton. done.
Qed.

Lemma incr_lookup k (items : list (string * nat)) :
  (list_to_map (incr k items) : gmap string nat) =
  <[k := default 0 ((list_to_map items : gmap string nat) !! k) + 1]>
    (list_to_map items).
Proof.
  induction items as [|[k' n] items IH]; [done|].
  cbn [incr]. destruct (String.eqb_spec k' k) as [->|Hne].
  - cbn [list_to_map foldr uncurry curry]. simpl.
    rewrite lookup_insert_eq. simpl. by rewrite insert_insert_eq.
  - cbn [list_to_map foldr]. simpl. fold (list_to_map (M:=gmap string nat) items).
    fold (list_to_map (M:=gmap string nat) (incr k items)).
    rewrite IH, lookup_insert_ne by done.
    by rewrite insert_insert_ne.
Qed.

Lemma counter_default n : default 0 (counter n) = n.
Proof. by destruct n. Qed.

Lemma counter_succ n : counter (S n) = Some (S n).
Proof. done. Qed.

Lemma items_of_keys (keys : list string) :
  NoDup (foldl (λ items k, incr k items) [] keys).*1 ∧
  ∀ k, (list_to_map (foldl (λ items k, incr k items) [] keys)
          : gmap string nat) !! k =
       counter (length (filter (λ k', k' = k) keys)).
Proof.
  induction keys as [|x keys [IHnd IH]] using rev_ind.
  - split; [apply NoDup_nil_2|done].
  - rewrite foldl_app. cbn [foldl]. split; [by apply incr_NoDup|].
    intros k. rewrite incr_lookup, filter_app, length_app, filter_cons,
      filter_nil.
    destruct (decide (x = k)) as [->|Hne].
    + rewrite lookup_insert_eq, IH, counter_default. simpl.
      by rewrite Nat.add_1_r.
    + rewrite lookup_insert_ne by done. rewrite IH. simpl.
      by rewrite Nat.add_0_r.
Qed.

Lemma filter_omap_length {X} (g : X → option string) k (l : list X) :
  length (filter (λ k', k' = k) (omap g l)) =
  length (filter (λ x, g x = Some k) l).
Proof.
  induction l as [|x l IH]; [done|].
  rewrite filter_cons. cbn [omap list_omap]. fold (omap g l).
  destruct (g x) as [k'|] eqn:Hg.
  - rewrite filter_cons. destruct (decide (k' = k)) as [->|Hne].
    + rewrite decide_True by done. simpl. by rewrite IH.
    + rewrite decide_False by congruence. done.
  - rewrite decide_False by done. done.
Qed.

Section SortedBy.
Context {X : Type} (key : X → Z).

Lemma insert_by_Permutation x (l : list X) : insert_by key x l ≡ₚ x :: l.
Proof.
  induction l as [|y l IH]; [done|]. cbn [insert_by].
  destruct (key x <=? key y)%Z; [done|].
  rewrite IH. apply Permutation_swap.
Qed.

Lemma sorted_by_Permutation (l : list X) : sorted_by key l ≡ₚ l.
Proof.
  induction l as [|x l IH]; [done|]. cbn [sorted_by].
  by rewrite insert_by_Permutation, IH.
Qed.

Lemma insert_by_sorted x (l : list X) :
  StronglySorted (λ a b, (key a <= key b)%Z) l →
  StronglySorted (λ a b, (key a <= key b)%Z) (insert_by key x l).
Proof.
  induction 1 as [|y l Hl IH Hy]; cbn [insert_by].
  - repeat constructor.
  - destruct (Z.leb_spec (key x) (key y)) as [Hle|Hgt].
    + constructor; [by constructor|].
      constructor; [done|].
      eapply Forall_impl; [exact Hy|]. intros z Hz. simpl in *. lia.
    + constructor; [done|].
      rewrite insert_by_Permutation. constructor; [lia|done].
Qed.

Lemma sorted_by_sorted (l : list X) :
  StronglySorted (λ a b, (key a <= key b)%Z) (sorted_by key l).
Proof.
  induction l as [|x l IH]; [constructor|]. by apply insert_by_sorted.
Qed.

End SortedBy.

Lemma StronglySorted_weaken {X} (rel rel' : relation X) (l : list X) :
  (∀ a b, rel a b → rel' a b) →
  StronglySorted rel l → StronglySorted rel' l.
Proof.
  intros Himp. induction 1 as [|x l Hl IH Hx]; constructor; [done|].
  eapply Forall_impl; [exact Hx|]. intros y. apply Himp.
Qed.

(** The items rebuilt from the keys are the table of the state. *)
Lemma sender_items_table (A R : list string) (d : dirs) :
  ∃ st, main A R d = Some st ∧
    NoDup (sender_items A R d).*1 ∧
    ∀ k n, (k, n) ∈ sender_items A R d ↔ sender_counts st !! k = Some n.
Proof.
  destruct (main_summary A R d)
    as (st & Hmain & _ & _ & _ & _ & _ & _ & _ & Hs).
  exists st. split; [done|].
  destruct (items_of_keys (unknown_keys A R (INBOX d))) as [Hnd Hlook].
  split; [done|]. intros k n.
  rewrite (elem_of_list_to_map (M:=gmap string)) by done.
  unfold sender_items. rewrite Hlook, Hs. unfold unknown_keys.
  by rewrite filter_omap_length.
Qed.

(** X19.  The report lists at most 60 domain keys, each once and with
    the count the table holds for it, by decreasing count; a key of the
    table that is not listed has a count no greater than any count
    listed, and is left out only when 60 keys are listed. *)
Theorem report_lists_top_senders (A R : list string) (d : dirs) :
  ∃ st, main A R d = Some st ∧
    (length (report A R d) ≤ 60)%nat ∧
    NoDup (report A R d).*1 ∧
    (∀ k n, (k, n) ∈ report A R d → sender_counts st !! k = Some n) ∧
    StronglySorted (λ a b : string * nat, (b.2 ≤ a.2)%nat) (report A R d) ∧
    (∀ k n, sender_counts st !! k = Some n → (k, n) ∉ report A R d →
       length (report A R d) = 60 ∧
       Forall (λ a : string * nat, (n ≤ a.2)%nat) (report A R d)).
Proof.
  destruct (sender_items_table A R d) as (st & Hmain & Hnd & Hitems).
  exists st. split; [done|].
  pose proof (sorted_by_Permutation (λ x : string * nat, (- Z.of_nat x.2)%Z)
                (sender_items A R d)) as Hperm.
  pose proof (sorted_by_sorted (λ x : string * nat, (- Z.of_nat x.2)%Z)
                (sender_items A R d)) as Hsorted.
  fold (sorted_senders A R d) in Hperm, Hsorted.
  rewrite <- (take_drop 60 (sorted_senders A R d)) in Hsorted.
  fold (report A R d) in Hsorted.
  split_and!.
  - unfold report. rewrite length_take. lia.
  - unfold report.
    apply (sublist_NoDup _ (sorted_senders A R d).*1);
      [by rewrite Hperm|].
    apply fmap_sublist, sublist_take.
  - intros k n Hin. apply Hitems. rewrite <- Hperm.
    unfold report in Hin. by eapply elem_of_sublist, sublist_take.
  - apply StronglySorted_app_1_l in Hsorted.
    eapply StronglySorted_weaken; [|exact Hsorted].
    intros a b. simpl. lia.
  - intros k n Hk Hout.
    assert ((k, n) ∈ drop 60 (sorted_senders A R d)) as Hdrop.
    { apply Hitems in Hk. rewrite <- Hperm in Hk.
      rewrite <- (take_drop 60 (sorted_senders A R d)) in Hk.
      apply elem_of_app in Hk as [Hk|Hk]; [done|done]. }
    split.
    + unfold report. rewrite length_take.
      destruct (decide (60 ≤ length (sorted_senders A R d))%nat); [lia|].
      rewrite drop_ge in Hdrop by lia. by apply elem_of_nil in Hdrop.
    + apply Forall_forall. intros a Ha.
      pose proof (StronglySorted_app_1_elem_of _ _ _ a (k, n) Hsorted Ha Hdrop)
        as Hle.
      simpl in Hle. lia.
Qed.

(** ** Searching in the sampling operation *)

Lemma lower_empty s : lower s = "" → s = "".
Proof. by destruct s. Qed.

Lemma search_term_lower s1 s2 :
  lower s1 = lower s2 →
  lower <$> search_term (Some s1) = lower <$> search_term (Some s2).
Proof.
  intros Hl. simpl.
  destruct (String.eqb_spec s1 "") as [->|H1].
  - symmetry in Hl. apply lower_empty in Hl as ->. done.
  - destruct (String.eqb_spec s2 "") as [->|H2].
    + apply lower_empty in Hl. done.
    + simpl. by rewrite Hl.
Qed.

Lemma visit_search_ext folder search1 search2 matches f :
  lower <$> search_term search1 = lower <$> search_term search2 →
  visit folder search1 matches f = visit folder search2 matches f.
Proof.
  unfold visit. intros Hs.
  destruct (search_term search1) as [s1|], (search_term search2) as [s2|];
    try done.
  injection Hs as ->. done.
Qed.

Lemma collect_search_ext folder search1 search2 :
  lower <$> search_term search1 = lower <$> search_term search2 →
  collect folder search1 = collect folder search2.
Proof.
  intros Hs. unfold collect.
  generalize (@nil entry).
  induction (sorted (glob_json folder)) as [|f files IH]; intros acc; [done|].
  cbn [foldl]. by rewrite (visit_search_ext _ _ _ _ _ Hs), IH.
Qed.

(** X20.  The search of the sampling operation ignores the letter case
    of the search string: two search strings that are equal once
    lowercased give the same result, whatever the folder and the
    count. *)
Theorem sample_search_ignores_case folder count s1 s2 :
  lower s1 = lower s2 →
  sample_entries folder count (Some s1) = sample_entries folder count (Some s2) ∧
  sample_emails folder count (Some s1) = sample_emails folder count (Some s2).
Proof.
  intros Hl.
  assert (sample_entries folder count (Some s1) =
          sample_entries folder count (Some s2)) as He.
  { destruct folder as [files|]; [|done]. simpl.
    by rewrite (collect_search_ext files (Some s1) (Some s2)
                  (search_term_lower s1 s2 Hl)). }
  split; [done|]. unfold sample_emails. by rewrite He.
Qed.

Lemma sample_search_ignores_case_witness :
  let folder : gmap string content :=
    {[ "0001.json" := Parsed {[ "from" := "Box Shop <sales@BoxShop.example>" ]};
       "0002.json" := Parsed {[ "from" := "ann@example.org" ]} ]} in
  sample_emails (Some folder) 100 (Some "BOXshop") =
  sample_emails (Some folder) 100 (Some "boxSHOP").
Proof.
  intros folder.
  apply (sample_search_ignores_case (Some folder) 100 "BOXshop" "boxSHOP").
  reflexivity.
Defined.

(** X21.  With a non-empty search string, the matches are the files
    named [*.json] that parse and whose sender or subject holds the
    search string, letter case ignored; a missing sender counts as
    ["unknown"] and a missing subject as ["no subject"], in the test and
    in the entry. *)
Theorem sample_search_matches folder s f sender subject :
  s ≠ "" →
  (f, sender, subject) ∈ collect folder (Some s) ↔
  ends_with ".json" f = true ∧
  ∃ email, folder !! f = Some (Parsed email) ∧
    sender = dict_get email "from" "unknown" ∧
    subject = dict_get email "subject" "no subject" ∧
    (contains_ci s sender = true ∨ contains_ci s subject = true).
Proof.
  intros Hs.
  assert (search_term (Some s) = Some s) as Hterm.
  { simpl. by destruct (String.eqb_spec s ""). }
  rewrite collect_bind, list_elem_of_bind. split.
  - intros (g & Hin & [Hj Hsome]%elem_of_sorted_glob).
    pose proof (visit_name _ _ _ _ Hin) as Hg. simpl in Hg. subst g.
    split; [done|]. revert Hin. unfold visit, json_load.
    destruct Hsome as [c Hc]. rewrite Hc, Hterm.
    destruct c as [msg|email]; [by intros ?%elem_of_nil|].
    unfold contains_ci.
    destruct (str_in (lower s) (lower (dict_get email "from" "unknown")))
      eqn:H1;
      destruct (str_in (lower s)
                  (lower (dict_get email "subject" "no subject"))) eqn:H2;
      simpl; rewrite ?list_elem_of_singleton;
      first [ by intros ?%elem_of_nil
            | intros [= -> ->]; exists email; rewrite H1, H2; by auto 10 ].
  - intros (Hj & email & Hf & -> & -> & Hhit).
    exists f. split; [|apply elem_of_sorted_glob; eauto].
    unfold visit, json_load. rewrite Hf, Hterm.
    unfold contains_ci in Hhit.
    destruct (str_in (lower s) (lower (dict_get email "from" "unknown")));
      destruct (str_in (lower s)
                  (lower (dict_get email "subject" "no subject")));
      simpl; try (by apply list_elem_of_singleton).
    by destruct Hhit.
Qed.

Lemma sample_search_matches_witness :
  let folder : gmap string content :=
    {[ "0001.json" := Parsed {[ "subject" := "Your order" ]} ]} in
  ("0001.json", "unknown", "Your order") ∈ collect folder (Some "KNOW") ↔
  ends_with ".json" "0001.json" = true ∧
  ∃ email, folder !! "0001.json" = Some (Parsed email) ∧
    "unknown" = dict_get email "from" "unknown" ∧
    "Your order" = dict_get email "subject" "no subject" ∧
    (contains_ci "KNOW" "unknown" = true ∨
     contains_ci "KNOW" "Your order" = true).
Proof.
  intros folder.
  apply (sample_search_matches folder "KNOW" "0001.json" "unknown"
           "Your order").
  done.
Defined.

(** ** What the sampling operation returns *)

Lemma visit_no_search folder search f :
  search_term search = None → visit folder search [] f ≠ [].
Proof.
  unfold visit. intros ->. by destruct (json_load folder f).
Qed.

(** X22.  Without a search string, or with an empty one, every file
    named [*.json] is a match, the ones that fail to load included: a
    count that is at least the number of those files returns all of
    them, in increasing order of name. *)
Theorem sample_without_search_lists_all folder search count :
  search = None ∨ search = Some "" →
  (Z.of_nat (length (sorted (glob_json folder))) <= count)%Z →
  sample_emails (Some folder) count search = sorted (glob_json folder).
Proof.
  intros Hnone%search_term_none Hcount.
  assert ((λ e : entry, e.1.1) <$> collect folder search =
          sorted (glob_json folder)) as Hnames.
  { rewrite collect_names. apply filter_all, Forall_forall.
    intros f _. by apply visit_no_search. }
  unfold sample_emails, sample_entries, recent.
  destruct (Z.gtb_spec (Z.of_nat (length (collect folder search))) count)
    as [Hgt|_]; [|done].
  rewrite <- Hnames, length_fmap in Hcount. lia.
Qed.

Lemma sample_without_search_lists_all_witness :
  let folder : gmap string content :=
    {[ "0002.json" := Parsed {[ "from" := "ann@example.org" ]};
       "0001.json" := LoadError "Expecting value";
       "notes.txt" := LoadError "not read" ]} in
  sample_emails (Some folder) 2 None = sorted (glob_json folder).
Proof.
  intros folder.
  apply (sample_without_search_lists_all folder None 2); [by left|].
  by vm_compute.
Defined.

(** X23.  The files the sampling operation returns are files of the
    listing, in increasing order of name and without repetition; with a
    positive count there are at most [count] of them. *)
Theorem sample_is_a_bounded_sublist folder count search :
  sample_emails (Some folder) count search
    `sublist_of` sorted (glob_json folder) ∧
  StronglySorted String.le (sample_emails (Some folder) count search) ∧
  NoDup (sample_emails (Some folder) count search) ∧
  ((0 < count)%Z →
   (Z.of_nat (length (sample_emails (Some folder) count search)) <= count)%Z).
Proof.
  assert (sample_emails (Some folder) count search
            `sublist_of` sorted (glob_json folder)) as Hsub.
  { unfold sample_emails, sample_entries.
    transitivity ((λ e : entry, e.1.1) <$> collect folder search).
    - apply fmap_sublist, recent_sublist.
    - rewrite collect_names. apply sublist_filter. }
  split_and!; [done| | |].
  - unfold sample_emails, sample_entries.
    pose proof (collect_sorted folder search) as Hsorted.
    pose proof (fmap_sublist (λ e : entry, e.1.1) _ _
                  (recent_sublist count (collect folder search))) as Hrec.
    revert Hsorted Hrec. generalize ((λ e : entry, e.1.1) <$> collect folder search).
    generalize ((λ e : entry, e.1.1) <$> recent count (collect folder search)).
    intros l1 l2 Hsorted Hrec. revert Hsorted.
    induction Hrec as [|x l1 l2 Hrec IH|x l1 l2 Hrec IH]; intros Hsorted.
    + constructor.
    + apply StronglySorted_cons in Hsorted as [Hx Hl].
      constructor; [by apply IH|].
      apply Forall_forall. intros y Hy.
      eapply Forall_forall in Hx; [exact Hx|]. by eapply elem_of_sublist.
    + apply StronglySorted_cons in Hsorted as [_ Hl]. by apply IH.
  - eapply sublist_NoDup; [apply NoDup_sorted_glob|done].
  - intros Hpos. unfold sample_emails, sample_entries. rewrite length_fmap.
    destruct (decide (count < Z.of_nat (length (collect folder search)))%Z)
      as [Hlt|Hge].
    + destruct (recent_positive count (collect folder search)) as [_ ->];
        lia.
    + unfold recent.
      destruct (Z.gtb_spec (Z.of_nat (length (collect folder search))) count);
        lia.
Qed.

(** X24.  With a positive count below the number of matches, the
    operation returns the last [count] matches, in the order of the
    listing. *)
Theorem sample_returns_last_matches folder count search :
  (0 < count < Z.of_nat (length (collect folder search)))%Z →
  ∃ skipped,
    (λ e : entry, e.1.1) <$> collect folder search =
      (skipped ++ sample_emails (Some folder) count search)%list ∧
    Z.of_nat (length (sample_emails (Some folder) count search)) = count.
Proof.
  intros Hc.
  destruct (recent_positive count (collect folder search) Hc) as [Hrec Hlen].
  exists ((λ e : entry, e.1.1) <$>
            take (length (collect folder search) - Z.to_nat count)
              (collect folder search)).
  unfold sample_emails, sample_entries. split.
  - rewrite Hrec, <- fmap_app. by rewrite take_drop.
  - rewrite length_fmap, Hlen. lia.
Qed.

Lemma sample_returns_last_matches_witness :
  let folder : gmap string content :=
    {[ "0001.json" := Parsed {[ "from" := "ann@example.org" ]};
       "0002.json" := Parsed {[ "from" := "bob@example.org" ]};
       "0003.json" := Parsed {[ "from" := "cy@example.org" ]} ]} in
  ∃ skipped,
    (λ e : entry, e.1.1) <$> collect folder None =
      (skipped ++ sample_emails (Some folder) 2 None)%list ∧
    Z.of_nat (length (sample_emails (Some folder) 2 None)) = 2%Z.
Proof.
  intros folder.
  apply (sample_returns_last_matches folder 2 None). by vm_compute.
Defined.

(** X25.  A negative count does not limit the result: the operation
    leaves out the first [- count] matches and returns all the others,
    so it returns nothing only when there are at most [- count]
    matches. *)
Theorem sample_negative_count folder count search :
  (count < 0)%Z →
  sample_emails (Some folder) count search =
  drop (Z.to_nat (- count)) ((λ e : entry, e.1.1) <$> collect folder search).
Proof.
  intros Hc. unfold sample_emails, sample_entries.
  destruct (collect folder search) as [|e matches] eqn:Hm.
  - unfold recent, slice_from.
    destruct (_ >? _)%Z; simpl; by rewrite ?drop_nil.
  - rewrite recent_nonpositive by (done || lia). by rewrite fmap_drop.
Qed.

Lemma sample_negative_count_witness :
  let folder : gmap string content :=
    {[ "0001.json" := Parsed {[ "from" := "ann@example.org" ]};
       "0002.json" := Parsed {[ "from" := "bob@example.org" ]};
       "0003.json" := Parsed {[ "from" := "cy@example.org" ]} ]} in
  sample_emails (Some folder) (-1) None = ["0002.json"; "0003.json"].
Proof.
  intros folder.
  rewrite (sample_negative_count folder (-1) None); [by vm_compute|done].
Defined.

(** ** The ranking of senders *)

(** The first [n] items by decreasing count, for items with distinct
    keys. *)
Lemma ranking_of_items n (items : list (string * nat)) :
  let ranked := take n (sorted_by (λ x, (- Z.of_nat x.2)%Z) items) in
  NoDup items.*1 →
  (length ranked ≤ n)%nat ∧
  NoDup ranked.*1 ∧
  (∀ x, x ∈ ranked → x ∈ items) ∧
  StronglySorted (λ a b : string * nat, (b.2 ≤ a.2)%nat) ranked ∧
  (∀ x, x ∈ items → x ∉ ranked →
     length ranked = n ∧ Forall (λ a : string * nat, (x.2 ≤ a.2)%nat) ranked).
Proof.
  intros ranked Hnd.
  set (key := λ x : string * nat, (- Z.of_nat x.2)%Z) in *.
  pose proof (sorted_by_Permutation key items) as Hperm.
  pose proof (sorted_by_sorted key items) as Hsorted.
  rewrite <- (take_drop n (sorted_by key items)) in Hsorted.
  fold ranked in Hsorted.
  split_and!.
  - unfold ranked. rewrite length_take. lia.
  - apply (sublist_NoDup _ (sorted_by key items).*1); [by rewrite Hperm|].
    apply fmap_sublist, sublist_take.
  - intros x Hx. rewrite <- Hperm. by eapply elem_of_sublist, sublist_take.
  - apply StronglySorted_app_1_l in Hsorted.
    eapply StronglySorted_weaken; [|exact Hsorted].
    intros a b. unfold key. lia.
  - intros x Hx Hout.
    assert (x ∈ drop n (sorted_by key items)) as Hdrop.
    { rewrite <- Hperm, <- (take_drop n (sorted_by key items)) in Hx.
      by apply elem_of_app in Hx as [Hx|Hx]. }
    split.
    + unfold ranked. rewrite length_take.
      destruct (decide (n ≤ length (sorted_by key items))%nat); [lia|].
      rewrite drop_ge in Hdrop by lia. by apply elem_of_nil in Hdrop.
    + apply Forall_forall. intros a Ha.
      pose proof (StronglySorted_app_1_elem_of _ _ _ a x Hsorted Ha Hdrop)
        as Hle.
      unfold key in Hle. lia.
Qed.

Section TopSenders.
Variable is_decode_error : string → bool.
Variable folder : gmap string content.

Lemma count_files_keys files : ∀ senders,
  (∀ f, f ∈ files →
     (∃ data, folder !! f = Some (Parsed data)) ∨
     (∃ msg, folder !! f = Some (LoadError msg) ∧
             is_decode_error msg = true)) →
  TopSenders.count_files is_decode_error folder files senders =
  Some (foldl (λ items k, incr k items) senders
          (omap (sender_of folder) files)).
Proof.
  induction files as [|f files IH]; intros senders Hok; [done|].
  cbn [TopSenders.count_files omap list_omap].
  fold (omap (sender_of folder) files).
  unfold TopSenders.count_file, sender_of.
  destruct (Hok f) as [[data Hf]|(msg & Hf & Hmsg)]; [by left| |].
  - rewrite Hf. simpl.
    destruct (String.eqb (dict_get data "from" "") ""); simpl;
      apply IH; intros g Hg; apply Hok; by right.
  - rewrite Hf, Hmsg. simpl. apply IH. intros g Hg. apply Hok. by right.
Qed.

Lemma count_files_abort files f msg : ∀ senders,
  f ∈ files →
  folder !! f = Some (LoadError msg) →
  is_decode_error msg = false →
  TopSenders.count_files is_decode_error folder files senders = None.
Proof.
  induction files as [|g files IH]; intros senders Hin Hf Hmsg.
  - by apply elem_of_nil in Hin.
  - cbn [TopSenders.count_files].
    destruct (decide (g = f)) as [->|Hne].
    + unfold TopSenders.count_file. by rewrite Hf, Hmsg.
    + apply elem_of_cons in Hin as [->|Hin]; [done|].
      destruct (TopSenders.count_file is_decode_error folder senders g);
        [|done].
      simpl. by apply IH.
Qed.

End TopSenders.

(** X26.  When the only exceptions are JSON decoding errors, the script
    prints at most [limit] lines, one per sender, by decreasing count.
    The count of a line is the number of [*.json] files of the folder
    that parse and have that non-empty sender, whatever the order in
    which the folder is listed; a sender that is left out has a count no
    greater than any count printed, and is left out only when [limit]
    lines are printed. *)
Theorem top_senders_ranking (is_decode_error : string → bool)
    (files : list string) (folder : gmap string content) (limit : Z) :
  files ≡ₚ glob_json folder →
  (∀ f msg, folder !! f = Some (LoadError msg) →
            is_decode_error msg = true) →
  ∃ ranked,
    TopSenders.main is_decode_error files folder limit = Some ranked ∧
    (length ranked ≤ Z.to_nat limit)%nat ∧
    NoDup ranked.*1 ∧
    StronglySorted (λ a b : string * nat, (b.2 ≤ a.2)%nat) ranked ∧
    (∀ s n, (s, n) ∈ ranked →
       s ≠ "" ∧ (0 < n)%nat ∧
       n = length (filter (λ f, sender_of folder f = Some s)
                     (glob_json folder))) ∧
    (∀ s f, f ∈ glob_json folder → sender_of folder f = Some s →
       s ∉ ranked.*1 →
       length ranked = Z.to_nat limit ∧
       Forall (λ a : string * nat,
                 (length (filter (λ f, sender_of folder f = Some s)
                            (glob_json folder)) ≤ a.2)%nat) ranked).
Proof.
  intros Hperm Hdecode.
  assert (TopSenders.count_files is_decode_error folder files [] =
          Some (foldl (λ items k, incr k items) []
                  (omap (sender_of folder) files))) as Hcount.
  { apply count_files_keys. intros f Hf. rewrite Hperm in Hf.
    unfold glob_json in Hf.
    apply list_elem_of_filter in Hf as [_ Hf].
    apply elem_of_elements, elem_of_dom in Hf as [[msg|data] Hf]; eauto. }
  set (items := foldl (λ items k, incr k items) []
                  (omap (sender_of folder) files)) in *.
  destruct (items_of_keys (omap (sender_of folder) files)) as [Hnd Hlook].
  fold items in Hnd, Hlook.
  assert (∀ s, length (filter (λ k', k' = s) (omap (sender_of folder) files)) =
               length (filter (λ f, sender_of folder f = Some s)
                         (glob_json folder))) as Hlen.
  { intros s. rewrite filter_omap_length. by rewrite Hperm. }
  assert (∀ s n, (s, n) ∈ items ↔
            counter (length (filter (λ f, sender_of folder f = Some s)
                               (glob_json folder))) = Some n) as Hitems.
  { intros s n. rewrite (elem_of_list_to_map (M:=gmap string)) by done.
    by rewrite Hlook, Hlen. }
  destruct (ranking_of_items (Z.to_nat limit) items Hnd)
    as (Hbound & Hnd' & Hsub & Hsorted & Hout).
  exists (TopSenders.most_common limit items).
  unfold TopSenders.main. rewrite Hcount. simpl.
  split_and!; try done.
  - intros s n Hin. apply Hsub, Hitems in Hin.
    destruct (length (filter (λ f, sender_of folder f = Some s)
                        (glob_json folder))) as [|c] eqn:Hc; [done|].
    simpl in Hin. injection Hin as <-. split_and!; [|lia|done].
    intros ->.
    assert (∃ f, f ∈ filter (λ f, sender_of folder f = Some "")
                       (glob_json folder)) as [f Hf].
    { destruct (filter _ (glob_json folder)) as [|f l]; [done|].
      exists f. by left. }
    apply list_elem_of_filter in Hf as [Hf _]. unfold sender_of in Hf.
    destruct (folder !! f) as [[msg|data]|]; try done. simpl in Hf.
    destruct (String.eqb_spec (dict_get data "from" "") ""); congruence.
  - intros s f Hf Hs Hnot.
    set (n := length (filter (λ f, sender_of folder f = Some s)
                        (glob_json folder))).
    assert ((s, n) ∈ items) as Hin.
    { apply Hitems. fold n.
      assert (0 < n)%nat as Hpos; [|by destruct n; [lia|]].
      unfold n.
      assert (f ∈ filter (λ f, sender_of folder f = Some s)
                    (glob_json folder)) as Hmem
        by (by apply list_elem_of_filter).
      destruct (filter _ (glob_json folder)); [by apply elem_of_nil in Hmem|].
      simpl. lia. }
    apply (Hout (s, n) Hin). intros Hr. apply Hnot.
    apply list_elem_of_fmap. by exists (s, n).
Qed.

Lemma top_senders_ranking_witness :
  let folder : gmap string content :=
    {[ "1.json" := Parsed {[ "from" := "ann@example.org" ]};
       "2.json" := Parsed {[ "from" := "bob@example.org" ]};
       "3.json" := Parsed {[ "from" := "bob@example.org" ]};
       "4.json" := LoadError "Expecting value";
       "5.json" := Parsed {[ "subject" := "no sender" ]} ]} in
  ∃ ranked,
    TopSenders.main (λ _, true) (glob_json folder) folder 1 = Some ranked ∧
    (length ranked ≤ 1)%nat.
Proof.
  intros folder.
  destruct (top_senders_ranking (λ _, true) (glob_json folder) folder 1)
    as (ranked & Hmain & Hlen & _); [done|done|].
  exists ranked. split; [done|]. exact Hlen.
Defined.

(** X27.  An exception that is not a JSON decoding error stops the
    script whatever file raises it: the ranking is printed after the
    loop, so nothing is printed at all. *)
Theorem top_senders_stops_on_other_errors (is_decode_error : string → bool)
    (files : list string) (folder : gmap string content) (limit : Z) f msg :
  f ∈ files →
  folder !! f = Some (LoadError msg) →
  is_decode_error msg = false →
  TopSenders.main is_decode_error files folder limit = None.
Proof.
  intros Hin Hf Hmsg. unfold TopSenders.main.
  by rewrite (count_files_abort is_decode_error folder files f msg).
Qed.

Lemma top_senders_stops_on_other_errors_witness :
  TopSenders.main (λ msg, String.eqb msg "Expecting value")
    ["1.json"; "2.json"]
    {[ "1.json" := Parsed {[ "from" := "ann@example.org" ]};
       "2.json" := LoadError "Permission denied" ]} 50 = None.
Proof.
  apply (top_senders_stops_on_other_errors _ _ _ _ "2.json"
           "Permission denied"); [|done|done].
  apply elem_of_cons. right. by left.
Defined.
